(** * Karpenter documentation indexer: parser, store and indexer

    A shallow embedding of [parser.py] and [indexer.py] of
    mcp_karpenter_documentation, with the Python library functions they call
    ([str.replace], [str.endswith], [str.strip], [str.title], [re.sub],
    [pathlib]) modelled next to them.

    Text is a list of 8-bit characters read as code points 0..255; the case
    mapping of [str.title] is the ASCII one. Paths are POSIX paths. *)

From Stdlib Require Import ZArith Ascii.
From Stdlib Require String.
From stdpp Require Import gmap strings list fin_maps sorting.

Set Warnings "-register-all".

(** Python's [str]. *)
Abbreviation str := (list ascii).

(** A literal: [!"abc"] is the text abc. *)
Notation "! s" := (String.list_ascii_of_string s) (at level 1, s at level 0, format "! s").

(** ** Python string methods *)
Module PyStr.

(** [s.startswith(p)] *)
Fixpoint startswith (s p : str) {struct p} : bool :=
  match p, s with
  | [], _ => true
  | _ :: _, [] => false
  | a :: p', c :: s' => if decide (a = c) then startswith s' p' else false
  end.

(** [s.endswith(p)] *)
Definition endswith (s p : str) : bool :=
  startswith (reverse s) (reverse p).

(** The scan of [s.replace(old, new)] for a non-empty [old]: occurrences are
    found from the left and do not overlap; [skip] counts the characters of
    the occurrence just replaced that are still to be passed over. *)
Fixpoint replace_scan (old new : str) (skip : nat) (s : str) : str :=
  match s with
  | [] => []
  | c :: t =>
    match skip with
    | S k => replace_scan old new k t
    | O =>
      if startswith s old
      then new ++ replace_scan old new (length old - 1) t
      else c :: replace_scan old new 0 t
    end
  end.

(** [s.replace(old, new)]; an empty [old] matches between all characters. *)
Definition replace (s old new : str) : str :=
  match old with
  | [] => new ++ flat_map (λ c, c :: new) s
  | _ :: _ => replace_scan old new 0 s
  end.

(** [s[:-n]] for a positive [n]. *)
Definition drop_last (n : nat) (s : str) : str :=
  take (length s - n) s.

(** [c.isspace()] on code points below 256. *)
Definition isspace (c : ascii) : bool :=
  let n := nat_of_ascii c in
  ((9 <=? n) && (n <=? 13)) || ((28 <=? n) && (n <=? 32))
  || (n =? 133) || (n =? 160).

Fixpoint lstrip (s : str) : str :=
  match s with
  | c :: t => if isspace c then lstrip t else s
  | [] => []
  end.

Definition rstrip (s : str) : str := reverse (lstrip (reverse s)).

(** [s.strip()] *)
Definition strip (s : str) : str := rstrip (lstrip s).

Definition isupper (c : ascii) : bool :=
  let n := nat_of_ascii c in (65 <=? n) && (n <=? 90).
Definition islower (c : ascii) : bool :=
  let n := nat_of_ascii c in (97 <=? n) && (n <=? 122).
Definition iscased (c : ascii) : bool := isupper c || islower c.
Definition upper (c : ascii) : ascii :=
  if islower c then ascii_of_nat (nat_of_ascii c - 32) else c.
Definition lower (c : ascii) : ascii :=
  if isupper c then ascii_of_nat (nat_of_ascii c + 32) else c.

(** [s.title()]: a cased character is upper-cased when the character
    before it is not cased, and lower-cased otherwise. *)
Fixpoint title_from (previous_is_cased : bool) (s : str) : str :=
  match s with
  | [] => []
  | c :: t =>
    (if previous_is_cased then lower c else upper c) :: title_from (iscased c) t
  end.

Definition title (s : str) : str := title_from false s.

(** [sep.join(l)] *)
Fixpoint join (sep : str) (l : list str) : str :=
  match l with
  | [] => []
  | [x] => x
  | x :: l' => x ++ sep ++ join sep l'
  end.

(** [s.split(sep)] for a one-character [sep]; [cur] is the piece being
    read. *)
Fixpoint split_from (sep : ascii) (cur : str) (s : str) : list str :=
  match s with
  | [] => [reverse cur]
  | c :: t =>
    if decide (c = sep) then reverse cur :: split_from sep [] t
    else split_from sep (c :: cur) t
  end.

Definition split (s : str) (sep : ascii) : list str := split_from sep [] s.

(** [s.rfind(c)] for a character [c]: the last index of [c], if any. *)
Fixpoint rfind_from (c : ascii) (i : nat) (found : option nat) (s : str) : option nat :=
  match s with
  | [] => found
  | a :: t => rfind_from c (S i) (if decide (a = c) then Some i else found) t
  end.

Definition rfind (s : str) (c : ascii) : option nat := rfind_from c 0 None s.

End PyStr.

(** ** pathlib.PurePosixPath *)
Module PurePath.

(** A path is its root flag and its named segments. *)
Record Path := mkPath { root : bool; names : list str }.

(** [Path(s)]: empty and [.] segments are dropped. *)
Definition of_str (s : str) : Path :=
  {| root := PyStr.startswith s !"/";
     names := filter (λ seg : str, seg ≠ [] ∧ seg ≠ !".") (PyStr.split s "/"%char) |}.

(** [p.parts] *)
Definition parts (p : Path) : list str :=
  (if root p then [!"/"] else []) ++ names p.

(** [str(p)] *)
Definition to_str (p : Path) : str :=
  if root p then !"/" ++ PyStr.join !"/" (names p)
  else match names p with
       | [] => !"."
       | _ :: _ => PyStr.join !"/" (names p)
       end.

(** [p / name] *)
Definition joinpath (p : Path) (name : str) : Path :=
  {| root := root p; names := names p ++ [name] |}.

(** [p.name] *)
Definition name (p : Path) : str := default [] (last (names p)).

(** [p.stem]: the name without its last suffix; a dot that starts or ends
    the name does not begin a suffix. *)
Definition stem (p : Path) : str :=
  let nm := name p in
  match PyStr.rfind nm "."%char with
  | Some i => if (0 <? i) && (i <? length nm - 1) then take i nm else nm
  | None => nm
  end.

End PurePath.
Export PurePath(Path, mkPath).

(** ** Python's re.sub for the patterns of the parser *)
Module Re.
Import PyStr.

(** A pattern is given by its match at the start of a text: the number of
    characters matched there, if it matches. *)
Definition matcher := str → option nat.

(** The scan of [re.sub(pattern, "", s)]: matches are found from the left
    and do not overlap; [skip] counts the characters of the match in
    progress that are still to be dropped. An empty match removes
    nothing. *)
Fixpoint sub_scan (m : matcher) (skip : nat) (s : str) : str :=
  match s with
  | [] => []
  | c :: t =>
    match skip with
    | S k => sub_scan m k t
    | O =>
      match m s with
      | Some (S k) => sub_scan m k t
      | _ => c :: sub_scan m 0 t
      end
    end
  end.

(** [re.sub(pattern, "", s)] *)
Definition sub (m : matcher) (s : str) : str := sub_scan m 0 s.

Definition newline : ascii := "010"%char.

(** [.*?close]: the shortest run of characters up to the first [close];
    without DOTALL a dot does not match a newline. *)
Fixpoint lazy_until (dotall : bool) (close : str) (s : str) : option nat :=
  if startswith s close then Some (length close)
  else match s with
       | [] => None
       | c :: t =>
         if dotall || bool_decide (c ≠ newline)
         then S <$> lazy_until dotall close t
         else None
       end.

(** [open.*?close] *)
Definition delimited (dotall : bool) (open close : str) : matcher :=
  λ s, if startswith s open
       then (λ n, length open + n) <$> lazy_until dotall close (drop (length open) s)
       else None.

(** [\{\{<.*?>\}\}] *)
Definition shortcode_angle : matcher := delimited false !"{{<" !">}}".
(** [\{\{%.*?%\}\}] *)
Definition shortcode_percent : matcher := delimited false !"{{%" !"%}}".
(** [\{\{.*?\}\}] *)
Definition shortcode_generic : matcher := delimited false !"{{" !"}}".
(** [<!--.*?-->] with DOTALL *)
Definition html_comment : matcher := delimited true !"<!--" !"-->".

Definition not_gt (c : ascii) : bool := bool_decide (c ≠ ">"%char).

(** The longest run of characters that are not [>]. *)
Fixpoint run_not_gt (s : str) : nat :=
  match s with
  | c :: t => if not_gt c then S (run_not_gt t) else 0
  | [] => 0
  end.

(** [<[^>]+>]: the greedy class takes the whole run; a shorter run is
    followed by a character that is not [>], so giving characters back
    never produces a match. *)
Definition html_tag : matcher :=
  λ s, match s with
       | c :: t =>
         if bool_decide (c = "<"%char) then
           match run_not_gt t with
           | O => None
           | S k => if startswith (drop (S k) t) !">" then Some (S k + 2) else None
           end
         else None
       | [] => None
       end.

End Re.

(** ** Exceptions *)
Module Py.

Inductive Exn :=
| ValueError (msg : str)
| FileNotFoundError
| IsADirectoryError
| LibraryError (what : str).

(** A call returns a value or raises. *)
Inductive result (A : Type) :=
| Ret (a : A)
| Raise (e : Exn).
Global Arguments Ret {A} a.
Global Arguments Raise {A} e.

Global Instance result_ret : MRet result := @Ret.
Global Instance result_bind : MBind result :=
  λ A B f m, match m with Ret a => f a | Raise e => Raise e end.

(** [try: body  except Exception: handler] *)
Definition try_except {A} (body : result A) (handler : Exn → result A) : result A :=
  match body with
  | Ret a => Ret a
  | Raise e => handler e
  end.

(** The values a YAML metadata block can hold. *)
Inductive object :=
| VNone
| VStr (s : str)
| VInt (n : Z)
| VBool (b : bool)
| VList (l : list object).

End Py.
Export Py(Exn(..), result(..), object(..)).

(** ** The file tree that pathlib reads *)
Module FS.
Import PyStr PurePath.

Inductive Node :=
| File (data : str)
| Dir (entries : list (str * Node)).

(** The entry of a directory listing with the given name. *)
Fixpoint entry (es : list (str * Node)) (nm : str) : option Node :=
  match es with
  | [] => None
  | (k, n) :: es' => if decide (k = nm) then Some n else entry es' nm
  end.

(** The node a sequence of names leads to. *)
Fixpoint walk (n : Node) (segs : list str) : option Node :=
  match segs with
  | [] => Some n
  | seg :: rest =>
    match n with
    | Dir es => match entry es seg with Some child => walk child rest | None => None end
    | File _ => None
    end
  end.

(** The node of a path; relative paths are read from the top of the tree. *)
Definition resolve (fs : Node) (p : Path) : option Node := walk fs (names p).

(** [p.exists()] *)
Definition exists_ (fs : Node) (p : Path) : bool :=
  match resolve fs p with Some _ => true | None => false end.

(** The entries below [here] whose name ends with [suffix]: those of the
    directory itself in listing order, then those of each subdirectory.
    A regular file has none. *)
Fixpoint rglob_node (suffix : str) (here : Path) (n : Node) : list Path :=
  match n with
  | File _ => []
  | Dir es =>
    map (λ e, joinpath here e.1) (filter (λ e, endswith e.1 suffix = true) es)
    ++ concat (map (λ e, rglob_node suffix (joinpath here e.1) e.2) es)
  end.

(** [p.rglob("*" + suffix)]: nothing when [p] is missing. *)
Definition rglob_star (fs : Node) (p : Path) (suffix : str) : list Path :=
  match resolve fs p with
  | Some n => rglob_node suffix p n
  | None => []
  end.

(** [open(p).read()] *)
Definition read_text (fs : Node) (p : Path) : result str :=
  match resolve fs p with
  | Some (File data) => Ret data
  | Some (Dir _) => Raise IsADirectoryError
  | None => Raise FileNotFoundError
  end.

End FS.
Export FS(Node(..)).

(** ** The records of models.py *)
Module Models.

(** Modelled from the spec: models.py is not among the sources; section 3
    gives the fields of a Document. *)
Record Document := mkDocument {
  path : str;
  title : str;
  description : option str;
  section : str;
  content : str;
  url : str
}.

(** Modelled from the spec: models.py is not among the sources; section 3
    gives the fields of DocumentMetadata. *)
Record DocumentMetadata := mkDocumentMetadata {
  md_title : str;
  md_description : option str;
  md_license : option str
}.

Global Instance Document_eq_dec : EqDecision Document.
Proof. solve_decision. Defined.

End Models.
Export Models(Document, mkDocument, DocumentMetadata, mkDocumentMetadata).

(** ** parser.py *)
Module Parser.
Import PyStr PurePath Models.

(** What [frontmatter.load] returns: the metadata block as a dictionary
    and the body. *)
Record Post := mkPost { metadata : gmap str object; body : str }.

Definition KARPENTER_DOCS_BASE_URL : str := !"https://karpenter.sh".

(** [p.relative_to(base)] *)
Definition relative_to (p base : Path) : result Path :=
  if bool_decide (root p = root base) && bool_decide (take (length (names base)) (names p) = names base)
  then Ret {| root := false; names := drop (length (names base)) (names p) |}
  else Raise (ValueError (to_str p ++ !" is not in the subpath of " ++ to_str base)).

(** [metadata.get(key)] *)
Definition get (metadata : gmap str object) (key : str) : object :=
  default VNone (metadata !! key).

(** [DocumentParser._extract_metadata] *)
Definition _extract_metadata (metadata : gmap str object) (file_path : Path) : DocumentMetadata :=
  let title :=
    match get metadata !"title" with
    | VStr s => s
    | _ => PyStr.title (replace (replace (stem file_path) !"-" !" ") !"_" !" ")
    end in
  let description :=
    match get metadata !"description" with
    | VStr s => Some s
    | _ => None
    end in
  let license_info :=
    match get metadata !"license" with
    | VStr s => Some s
    | _ => None
    end in
  {| md_title := title; md_description := description; md_license := license_info |}.

(** [DocumentParser._extract_section] *)
Definition _extract_section (relative_path : Path) : str :=
  match parts relative_path with
  | first :: _ :: _ => first
  | _ => !"root"
  end.

(** [DocumentParser._compute_url] *)
Definition _compute_url (relative_path : Path) : str :=
  let path_str := replace (replace (to_str relative_path) !".md" []) !".markdown" [] in
  let path_str := if endswith path_str !"/index" then drop_last 6 path_str else path_str in
  let path_str := replace path_str !"content/en/docs/" !"docs/" in
  let path_str := replace path_str !"content/en/" [] in
  KARPENTER_DOCS_BASE_URL ++ !"/" ++ path_str.

(** [DocumentParser._clean_content] *)
Definition _clean_content (content : str) : str :=
  let content := Re.sub Re.shortcode_angle content in
  let content := Re.sub Re.shortcode_percent content in
  let content := Re.sub Re.shortcode_generic content in
  let content := Re.sub Re.html_comment content in
  let content := Re.sub Re.html_tag content in
  strip content.

Section World.
(** The file tree, and the parser of the frontmatter library: the text
    of a file to its metadata block and body, raising on a malformed
    block. *)
Variable fs : Node.
Variable loads : str → result Post.

(** [frontmatter.load(file_path)] *)
Definition load (file_path : Path) : result Post :=
  text ← FS.read_text fs file_path; loads text.

(** The body of the [try] block of [parse_file]. *)
Definition parse_file_try (file_path base_path : Path) : result (option Document) :=
  post ← load file_path;
  let metadata := _extract_metadata (Parser.metadata post) file_path in
  relative_path ← relative_to file_path base_path;
  let section := _extract_section relative_path in
  let url := _compute_url relative_path in
  let content := _clean_content (body post) in
  mret (Some {| Models.path := to_str relative_path;
                Models.title := Models.md_title metadata;
                Models.description := Models.md_description metadata;
                Models.section := section;
                Models.content := content;
                Models.url := url |}).

(** [DocumentParser.parse_file] *)
Definition parse_file (file_path base_path : Path) : result (option Document) :=
  Py.try_except (parse_file_try file_path base_path) (λ _, Ret None).

End World.

End Parser.


(** ** The document store *)
Module Store.
Import Models.

(** Modelled from the spec: database.py is not among the sources. Section
    4.2 describes a store keyed by path: upsert inserts or replaces the
    record of the document's path, get is the exact lookup, count the
    number of stored documents, clear empties the store. *)
Definition upsert_document (document : Document) (db : gmap str Document) : gmap str Document :=
  <[path document := document]> db.

Definition get_document (p : str) (db : gmap str Document) : option Document :=
  db !! p.

Definition get_document_count (db : gmap str Document) : Z :=
  Z.of_nat (size db).

Definition clear (db : gmap str Document) : gmap str Document := ∅.

(** Every record is stored under its own path. *)
Definition keyed (db : gmap str Document) : Prop :=
  ∀ k d, db !! k = Some d → path d = k.

Section Search.
(** The full-text engine: whether a query matches a title, description
    and content, and how relevant the match is. *)
Variable fts_match : str → str → option str → str → bool.
Variable fts_rank : str → str → option str → str → Z.

Definition hit (query : str) (d : Document) : bool :=
  fts_match query (title d) (description d) (content d).

Definition rank (query : str) (d : Document) : Z :=
  fts_rank query (title d) (description d) (content d).

(** [d1] is at least as relevant as [d2]. *)
Definition before (query : str) (d1 d2 : Document) : Prop :=
  (rank query d2 ≤ rank query d1)%Z.

Global Instance before_dec query d1 d2 : Decision (before query d1 d2).
Proof. unfold before. apply _. Defined.

(** Modelled from the spec: database.py is not among the sources. Section
    4.2: the stored documents that match the query on title, description
    or content, best match first; an empty query yields nothing. *)
Definition search (query : str) (db : gmap str Document) : list Document :=
  match query with
  | [] => []
  | _ :: _ => merge_sort (before query) (filter (λ d, hit query d = true) (map_to_list db).*2)
  end.

End Search.

End Store.

(** ** indexer.py *)
Module Indexer.
Import PyStr PurePath Models.

Section World.
Variable fs : Node.
Variable loads : str → result Parser.Post.

(** The loop of [_index_directory] over the files still to visit. *)
Fixpoint index_files (docs_path : Path) (md_files : list Path)
    (indexed_count : Z) (database : gmap str Document) : result (Z * gmap str Document) :=
  match md_files with
  | [] => mret (indexed_count, database)
  | file_path :: rest =>
    document ← Parser.parse_file fs loads file_path docs_path;
    match document with
    | Some document =>
      index_files docs_path rest (indexed_count + 1)%Z (Store.upsert_document document database)
    | None => index_files docs_path rest indexed_count database
    end
  end.

(** The files [_index_directory] visits. *)
Definition md_files (docs_path : Path) : list Path :=
  FS.rglob_star fs docs_path !".md" ++ FS.rglob_star fs docs_path !".markdown".

(** [KarpenterDocsIndexer._index_directory]: the count returned and the
    store as the call leaves it. *)
Definition _index_directory (docs_path : Path) (database : gmap str Document)
    : result (Z * gmap str Document) :=
  if negb (FS.exists_ fs docs_path)
  then Raise (ValueError (!"Documentation path does not exist: " ++ to_str docs_path))
  else index_files docs_path (md_files docs_path) 0%Z database.

(** [KarpenterDocsIndexer.index_from_path] *)
Definition index_from_path (docs_path : Path) (database : gmap str Document)
    : result (Z * gmap str Document) :=
  _index_directory docs_path database.

End World.

End Indexer.

(** ** Vocabulary of the properties *)
Module Terms.
Import PyStr PurePath Models Re Parser Indexer.

(** The pattern matches somewhere in the text. *)
Definition occurs (m : matcher) (s : str) : Prop :=
  ∃ pre u, s = pre ++ u ∧ is_Some (m u).

(** A pattern whose matches all start with the character [h]. *)
Definition starts_with_char (h : ascii) (m : matcher) : Prop :=
  ∀ u, is_Some (m u) → head u = Some h.

(** A match is still a match when text is added after it. *)
Definition extends (m : matcher) : Prop :=
  ∀ u post, is_Some (m u) → is_Some (m (u ++ post)).

(** The line goes on to a closing pair of braces. *)
Definition closes (r : str) : Prop := is_Some (lazy_until false !"}}" r).

(** The text after the three shortcode passes. *)
Definition without_shortcodes (content : str) : str :=
  sub shortcode_generic (sub shortcode_percent (sub shortcode_angle content)).

(** The title derived from the file name. *)
Definition title_of_filename (file_path : Path) : str :=
  PyStr.title (PyStr.replace (PyStr.replace (stem file_path) !"-" !" ") !"_" !" ").

Section World.
Variable fs : Node.
Variable loads : str → result Parser.Post.

(** The document a file parses to, if it does. *)
Definition parsed (docs_path file_path : Path) : option Document :=
  match Parser.parse_file fs loads file_path docs_path with
  | Ret r => r
  | Raise _ => None
  end.

(** The documents of the files that parse, in the order visited. *)
Definition successes (docs_path : Path) : list Document :=
  omap (parsed docs_path) (md_files fs docs_path).

(** The files that fail to parse. *)
Definition failures (docs_path : Path) : list Path :=
  filter (λ f, parsed docs_path f = None) (md_files fs docs_path).

Definition upsert_all (docs : list Document) (db : gmap str Document) : gmap str Document :=
  foldl (λ db d, Store.upsert_document d db) db docs.

End World.

End Terms.

(** ** Sample file trees, frontmatter parsers and full-text engines *)
Module Samples.
Import PyStr PurePath Models Parser.

(** A file tree with one document whose metadata block gives an empty
    title. *)
Definition empty_title_tree : Node :=
  Dir [(!"docs", Dir [(!"a.md", File !"front")])].
Definition empty_title_loads (text : str) : result Post :=
  Ret {| metadata := {[ !"title" := VStr [] ]}; body := text |}.

Definition plain_tree : Node :=
  Dir [(!"test-doc.md", File !"# Test Document");
       (!"docs", Dir [(!"index.md", File !"{{< hint >}} <b>Overview</b>")])].
Definition plain_loads (text : str) : result Post :=
  Ret {| metadata := ∅; body := text |}.

(** A tree with two files that parse, one whose metadata block is
    rejected, a directory named like a markdown file, and a text file. *)
Definition sample_tree : Node :=
  Dir [(!"index.md", File !"Welcome");
       (!"notes.txt", File !"plain");
       (!"docs", Dir [(!"broken.md", File !"---bad");
                      (!"guide.markdown", File !"<b>Guide</b>");
                      (!"old.md", Dir [])])].
Definition sample_loads (text : str) : result Parser.Post :=
  if startswith text !"---" then Raise (Py.LibraryError !"yaml")
  else Ret {| Parser.metadata := ∅; Parser.body := text |}.

(** A full-text engine for examples: a query matches a document whose
    content starts with it; every match has the same rank. *)
Definition prefix_match (query _title : str) (_description : option str) (content : str) : bool :=
  PyStr.startswith content query.
Definition flat_rank (query _title : str) (_description : option str) (_content : str) : Z := 0%Z.

Definition test_doc : Document :=
  {| path := !"docs/test.md"; title := !"Test Document";
     description := Some !"A test document"; section := !"docs";
     content := !"This is test content"; url := !"https://karpenter.sh/docs/test" |}.

End Samples.

(** ** indexer.py: indexing a clone *)
Module Remote.
Import PyStr PurePath Models Indexer.

Definition KARPENTER_REPO : str := !"https://github.com/aws/karpenter-provider-aws.git".
Definition DOCS_PATH : str := !"website".

Section World.
Variable loads : str → result Parser.Post.
(** [subprocess.run(cmd, check=True, capture_output=True)]: the file tree
    the command leaves, or the error raised when it cannot be run or exits
    with a failure. *)
Variable run : list str → Node → result Node.
(** [tempfile.TemporaryDirectory()]: the path of the new directory and the
    file tree that holds it. *)
Variable mkdtemp : Node → Path * Node.

(** The clone command of [_clone_repository]. *)
Definition clone_cmd (target_path : Path) (branch : str) (shallow : bool) : list str :=
  let cmd := [!"git"; !"clone"] in
  let cmd :=
    if shallow then cmd ++ [!"--depth"; !"1"; !"--filter=blob:none"; !"--sparse"] else cmd in
  cmd ++ [!"--branch"; branch; KARPENTER_REPO; to_str target_path].

(** The sparse checkout command of [_clone_repository]. *)
Definition sparse_cmd (target_path : Path) : list str :=
  [!"git"; !"-C"; to_str target_path; !"sparse-checkout"; !"set"; DOCS_PATH].

(** [KarpenterDocsIndexer._clone_repository] *)
Definition _clone_repository (target_path : Path) (branch : str) (shallow : bool)
    (fs : Node) : result Node :=
  fs ← run (clone_cmd target_path branch shallow) fs;
  if shallow then run (sparse_cmd target_path) fs else mret fs.

(** [KarpenterDocsIndexer.index_from_git]: the store as the call leaves it,
    and the count returned or the error raised. A call that raises leaves
    the store as it found it: [_index_directory] raises only before its
    first upsert. *)
Definition index_from_git (branch : str) (shallow : bool) (fs : Node)
    (database : gmap str Document) : gmap str Document * result Z :=
  let '(temp_dir, fs) := mkdtemp fs in
  let repo_path := joinpath temp_dir !"karpenter-provider-aws" in
  match _clone_repository repo_path branch shallow fs with
  | Raise e => (database, Raise e)
  | Ret fs =>
    match _index_directory fs loads (joinpath repo_path DOCS_PATH) database with
    | Ret (indexed_count, database) => (database, Ret indexed_count)
    | Raise e => (database, Raise e)
    end
  end.

(** [KarpenterDocsIndexer.rebuild_index] *)
Definition rebuild_index (branch : str) (fs : Node) (database : gmap str Document)
    : gmap str Document * result Z :=
  index_from_git branch true fs (Store.clear database).

End World.

End Remote.

(** ** More vocabulary and samples *)
Module MoreTerms.
Import PyStr PurePath Models.

(** [old] occurs in [s]. *)
Definition contains (s old : str) : Prop := ∃ pre post, s = pre ++ old ++ post.

(** The same, by a scan of [s]. *)
Fixpoint contains_b (s old : str) : bool :=
  startswith s old || match s with [] => false | _ :: t => contains_b t old end.

(** A temporary directory that is already there. *)
Definition sample_mkdtemp (fs : Node) : Path * Node := (of_str !"tmp/clone", fs).

(** What a clone leaves: the website directory with two documents. *)
Definition cloned_tree : Node :=
  Dir [(!"tmp", Dir [(!"clone", Dir [(!"karpenter-provider-aws", Dir [
         (!"README.md", File !"readme");
         (!"website", Dir [(!"index.md", File !"Welcome");
                            (!"docs", Dir [(!"faq.md", File !"Questions")])])])])])].

(** A git that always succeeds and leaves the clone, and one that always
    fails. *)
Definition sample_run (cmd : list str) (fs : Node) : result Node := Ret cloned_tree.
Definition failing_run (cmd : list str) (fs : Node) : result Node :=
  Raise (Py.LibraryError !"git").

End MoreTerms.

(** * Properties *)

(** ** URL derivation *)
Module UrlFacts.
Import PyStr PurePath Parser.

(** The text of a path is all that URL derivation reads. *)
Lemma compute_url_of_text (p q : Path) :
  to_str p = to_str q → _compute_url p = _compute_url q.
Proof. unfold _compute_url. by intros ->. Qed.

(** C7: URL derivation is a function of the relative path: equal paths, and
    even paths with equal text, have the same URL; docs/concepts/scheduling.md
    maps to <base>/docs/concepts/scheduling and content/en/docs/guides/x.md
    to <base>/docs/guides/x, where <base> is https://karpenter.sh. *)
Theorem compute_url_pure_examples :
  (∀ p q : Path, to_str p = to_str q → _compute_url p = _compute_url q)
  ∧ _compute_url (of_str !"docs/concepts/scheduling.md")
    = KARPENTER_DOCS_BASE_URL ++ !"/docs/concepts/scheduling"
  ∧ _compute_url (of_str !"content/en/docs/guides/x.md")
    = KARPENTER_DOCS_BASE_URL ++ !"/docs/guides/x".
Proof.
  split; [exact compute_url_of_text|]. split; reflexivity.
Qed.

Lemma compute_url_pure_examples_witness :
  to_str (of_str !"docs/./a.md") = to_str (of_str !"docs//a.md")
  ∧ _compute_url (of_str !"docs/./a.md") = _compute_url (of_str !"docs//a.md").
Proof.
  split; [reflexivity|].
  apply (proj1 compute_url_pure_examples). reflexivity.
Defined.

(** C10: the relative path index.md maps to <base>/index: the trailing
    index is dropped only after a separator, as in docs/index.md, which
    maps to <base>/docs. *)
Theorem compute_url_root_index :
  to_str (of_str !"index.md") = !"index.md"
  ∧ _compute_url (of_str !"index.md") = KARPENTER_DOCS_BASE_URL ++ !"/index"
  ∧ _compute_url (of_str !"docs/index.md") = KARPENTER_DOCS_BASE_URL ++ !"/docs".
Proof. repeat split; reflexivity. Qed.

(** C1: the extension step deletes every occurrence of .md, not only a
    trailing one: guides.md/setup.md maps to <base>/guides/setup, while
    guide.markdown maps to <base>/guide. *)
Theorem compute_url_md_inside_path :
  _compute_url (of_str !"guides.md/setup.md") = KARPENTER_DOCS_BASE_URL ++ !"/guides/setup"
  ∧ _compute_url (of_str !"guides.md/setup.md") ≠ KARPENTER_DOCS_BASE_URL ++ !"/guides.md/setup"
  ∧ _compute_url (of_str !"guide.markdown") = KARPENTER_DOCS_BASE_URL ++ !"/guide".
Proof. repeat split; try reflexivity. by vm_compute. Qed.

(** C2: the prefix rewrites act on every occurrence, not only a leading
    one: docs/content/en/guide.md maps to <base>/docs/guide, and
    a/content/en/docs/b.md to <base>/a/docs/b. *)
Theorem compute_url_prefix_inside_path :
  _compute_url (of_str !"docs/content/en/guide.md") = KARPENTER_DOCS_BASE_URL ++ !"/docs/guide"
  ∧ _compute_url (of_str !"docs/content/en/guide.md") ≠ KARPENTER_DOCS_BASE_URL ++ !"/docs/content/en/guide"
  ∧ _compute_url (of_str !"a/content/en/docs/b.md") = KARPENTER_DOCS_BASE_URL ++ !"/a/docs/b".
Proof. repeat split; try reflexivity. by vm_compute. Qed.

End UrlFacts.

(** ** Titles and the parse contract *)
Module ParserFacts.
Import PyStr PurePath Models Parser Terms Samples.

(** Replacing one character by one character keeps the length. *)
Lemma replace_scan_char_length (a b : ascii) (s : str) :
  length (replace_scan [a] [b] 0 s) = length s.
Proof.
  induction s as [|c t IH]; [done|].
  cbn [replace_scan]. destruct (startswith (c :: t) [a]); cbn; by rewrite IH.
Qed.

Lemma replace_char_length (a b : ascii) (s : str) :
  length (replace s [a] [b]) = length s.
Proof. apply replace_scan_char_length. Qed.

Lemma title_from_length (b : bool) (s : str) :
  length (title_from b s) = length s.
Proof. revert b. induction s as [|c t IH]; intros b; [done|]. cbn. by rewrite IH. Qed.

Lemma rfind_from_bound (c : ascii) (s : str) (i : nat) (found : option nat) (k : nat) :
  rfind_from c i found s = Some k →
  (found = Some k) ∨ (i ≤ k < i + length s).
Proof.
  revert i found. induction s as [|a t IH]; intros i found H; cbn in H.
  - by left.
  - apply IH in H as [H|H].
    + case_decide; [|by left]. injection H as <-. right. cbn. lia.
    + right. cbn. lia.
Qed.

(** A named file has a non-empty stem. *)
Lemma stem_nonempty (p : Path) : name p ≠ [] → stem p ≠ [].
Proof.
  intros Hn. unfold stem. destruct (rfind (name p) "."%char) as [i|] eqn:E; [|done].
  destruct (andb _ _) eqn:Hb; [|done].
  apply andb_prop in Hb as [H0 H1].
  apply Nat.ltb_lt in H0. apply Nat.ltb_lt in H1.
  intros Ht. apply (f_equal length) in Ht. rewrite length_take in Ht. cbn in Ht. lia.
Qed.

Lemma title_of_filename_nonempty (p : Path) :
  name p ≠ [] → title_of_filename p ≠ [].
Proof.
  intros Hn Ht. apply (stem_nonempty p Hn).
  apply (f_equal length) in Ht. unfold title_of_filename, PyStr.title in Ht.
  rewrite title_from_length in Ht.
  change !"-" with ["-"%char] in Ht. change !"_" with ["_"%char] in Ht.
  change !" " with [" "%char] in Ht.
  rewrite !replace_char_length in Ht. by destruct (stem p).
Qed.

Lemma extract_metadata_title (metadata : gmap str object) (file_path : Path) :
  md_title (_extract_metadata metadata file_path)
  = match get metadata !"title" with
    | VStr s => s
    | _ => title_of_filename file_path
    end.
Proof. reflexivity. Qed.

Section World.
Variable fs : Node.
Variable loads : str → result Post.

(** What a successful parse went through. *)
Lemma parse_file_Some (file_path base_path : Path) (d : Document) :
  parse_file fs loads file_path base_path = Ret (Some d) →
  ∃ post rel,
    load fs loads file_path = Ret post
    ∧ relative_to file_path base_path = Ret rel
    ∧ d = {| path := to_str rel;
             title := md_title (_extract_metadata (metadata post) file_path);
             description := md_description (_extract_metadata (metadata post) file_path);
             section := _extract_section rel;
             content := _clean_content (body post);
             url := _compute_url rel |}.
Proof.
  unfold parse_file, parse_file_try, Py.try_except.
  destruct (load fs loads file_path) as [post|e] eqn:El; cbn; [|done].
  destruct (relative_to file_path base_path) as [rel|e] eqn:Er; cbn; [|done].
  intros [= <-]. by exists post, rel.
Qed.

Lemma parse_file_total (file_path base_path : Path) :
  ∃ r, parse_file fs loads file_path base_path = Ret r.
Proof.
  unfold parse_file, parse_file_try, Py.try_except.
  destruct (load fs loads file_path) as [post|e]; cbn; [|by eexists].
  destruct (relative_to file_path base_path) as [rel|e]; cbn; by eexists.
Qed.

End World.

(** C4, as stated, fails: a metadata block whose title is the empty string
    parses to a document with an empty title. *)
Lemma parse_file_empty_title :
  ∃ d, parse_file empty_title_tree empty_title_loads
         (of_str !"docs/a.md") (of_str !"") = Ret (Some d)
       ∧ title d = [].
Proof. eexists. split; reflexivity. Qed.

(** C4, amended: the title of a parsed document is the metadata block's
    title when that is a string, and the value derived from the file name
    otherwise; it is non-empty unless the metadata title is the empty
    string. *)
Theorem parse_file_title (fs : Node) (loads : str → result Post)
    (file_path base_path : Path) (d : Document) :
  parse_file fs loads file_path base_path = Ret (Some d) →
  name file_path ≠ [] →
  ∃ post,
    load fs loads file_path = Ret post
    ∧ title d = match get (metadata post) !"title" with
                | VStr s => s
                | _ => title_of_filename file_path
                end
    ∧ (get (metadata post) !"title" ≠ VStr [] → title d ≠ []).
Proof.
  intros Hp Hn. apply parse_file_Some in Hp as (post & rel & Hl & _ & ->).
  exists post. split; [done|]. cbn [title]. rewrite extract_metadata_title.
  split; [done|]. intros Hne.
  destruct (get (metadata post) !"title") as [|s| | |]; try by apply title_of_filename_nonempty.
  intros ->. by apply Hne.
Qed.

Lemma parse_file_title_witness :
  ∃ d, parse_file plain_tree plain_loads (of_str !"test-doc.md") (of_str !"") = Ret (Some d)
       ∧ title d = !"Test Doc".
Proof.
  eexists. split; [reflexivity|].
  destruct (parse_file_title plain_tree plain_loads (of_str !"test-doc.md") (of_str !"") _
              eq_refl ltac:(done)) as (post & Hl & Ht & _).
  injection Hl as <-. exact Ht.
Defined.

(** C6: parse_file always returns: a file that cannot be read, a metadata
    block the frontmatter parser rejects and a file outside the base path
    give None, and a readable file under the base path with no metadata
    block gives a document titled from its file name, with no description. *)
Theorem parse_file_never_raises (fs : Node) (loads : str → result Post)
    (file_path base_path : Path) :
  (∃ r, parse_file fs loads file_path base_path = Ret r)
  ∧ (∀ e, FS.read_text fs file_path = Raise e →
          parse_file fs loads file_path base_path = Ret None)
  ∧ (∀ text e, FS.read_text fs file_path = Ret text → loads text = Raise e →
          parse_file fs loads file_path base_path = Ret None)
  ∧ (∀ e, relative_to file_path base_path = Raise e →
          parse_file fs loads file_path base_path = Ret None)
  ∧ (∀ text rel, FS.read_text fs file_path = Ret text →
          loads text = Ret {| metadata := ∅; body := text |} →
          relative_to file_path base_path = Ret rel →
          ∃ d, parse_file fs loads file_path base_path = Ret (Some d)
               ∧ path d = to_str rel
               ∧ title d = title_of_filename file_path
               ∧ description d = None
               ∧ content d = _clean_content text).
Proof.
  split; [apply parse_file_total|].
  unfold parse_file, parse_file_try, load, Py.try_except.
  repeat split.
  - intros e ->. done.
  - intros text e -> Hl. cbn. by rewrite Hl.
  - intros e ->. cbn. by destruct (FS.read_text fs file_path ≫= _).
  - intros text rel -> Hl ->. cbn. rewrite Hl. cbn. eexists. split; [reflexivity|]. done.
Qed.

Lemma parse_file_never_raises_witness :
  ∃ d, parse_file plain_tree plain_loads (of_str !"test-doc.md") (of_str !"") = Ret (Some d)
       ∧ title d = !"Test Doc" ∧ description d = None ∧ content d = !"# Test Document".
Proof.
  destruct (parse_file_never_raises plain_tree plain_loads (of_str !"test-doc.md") (of_str !""))
    as (_ & _ & _ & _ & H).
  destruct (H !"# Test Document" (of_str !"test-doc.md") eq_refl eq_refl eq_refl)
    as (d & Hd & _ & Ht & Hde & Hc).
  exists d. repeat split; [exact Hd|exact Ht|exact Hde|exact Hc].
Defined.

End ParserFacts.

(** ** The store *)
Module StoreFacts.
Import Models Store Samples.

Lemma keyed_empty : keyed ∅.
Proof. intros k d H. by rewrite lookup_empty in H. Qed.

Lemma keyed_upsert (d : Document) (db : gmap str Document) :
  keyed db → keyed (upsert_document d db).
Proof.
  intros Hk k d'. unfold upsert_document. rewrite lookup_insert.
  case_decide as E; [|by apply Hk]. by intros [= <-].
Qed.

(** In a keyed store no document is held twice. *)
Lemma keyed_values_NoDup (db : gmap str Document) :
  keyed db → NoDup (map_to_list db).*2.
Proof.
  intros Hk. apply NoDup_fmap_2_strong; [|apply NoDup_map_to_list].
  intros [k1 d1] [k2 d2] H1 H2. cbn. intros <-.
  apply elem_of_map_to_list in H1, H2.
  f_equal. by rewrite <- (Hk _ _ H1), <- (Hk _ _ H2).
Qed.

Lemma upsert_value_stored (d : Document) (db : gmap str Document) :
  d ∈ (map_to_list (upsert_document d db)).*2.
Proof.
  apply list_elem_of_fmap. exists (path d, d). split; [done|].
  apply elem_of_map_to_list. unfold upsert_document. apply lookup_insert_eq.
Qed.

(** An element of a duplicate-free list is found exactly once. *)
Lemma filter_eq_NoDup_length (d : Document) (l : list Document) :
  NoDup l → d ∈ l → length (filter (λ x, x = d) l) = 1.
Proof.
  induction 1 as [|x l Hx Hl IH]; [by intros ?%elem_of_nil|].
  intros Hd. rewrite filter_cons. case_decide as E.
  - subst x. cbn. f_equal. apply length_zero_iff_nil.
    apply elem_of_nil_inv. intros y [-> Hy]%list_elem_of_filter. done.
  - apply elem_of_cons in Hd as [->|Hd]; [done|]. by apply IH.
Qed.

Section Search.
Variable fts_match : str → str → option str → str → bool.
Variable fts_rank : str → str → option str → str → Z.

Lemma search_hits (query : str) (db : gmap str Document) (d : Document) :
  keyed db → query ≠ [] → d ∈ (map_to_list db).*2 →
  length (filter (λ x, x = d) (search fts_match fts_rank query db))
  = if hit fts_match query d then 1 else 0.
Proof.
  intros Hk Hq Hd. unfold search. destruct query as [|c q]; [done|].
  rewrite merge_sort_Permutation.
  destruct (hit fts_match (c :: q) d) eqn:Hh.
  - apply filter_eq_NoDup_length.
    + apply NoDup_filter. by apply keyed_values_NoDup.
    + apply list_elem_of_filter. done.
  - apply length_zero_iff_nil, elem_of_nil_inv.
    intros y [-> Hy]%list_elem_of_filter.
    apply list_elem_of_filter in Hy as [Hy _]. congruence.
Qed.

(** C8: get after upsert returns the document, equal in every field;
    a second upsert of the same document leaves the count and the search
    results as they were, and a non-empty query that matches the
    document finds it exactly once. *)
Theorem upsert_get_idempotent (db : gmap str Document) (D : Document) (query : str) :
  get_document (path D) (upsert_document D db) = Some D
  ∧ get_document_count (upsert_document D (upsert_document D db))
    = get_document_count (upsert_document D db)
  ∧ search fts_match fts_rank query (upsert_document D (upsert_document D db))
    = search fts_match fts_rank query (upsert_document D db)
  ∧ (keyed db → query ≠ [] → hit fts_match query D = true →
     length (filter (λ x, x = D)
               (search fts_match fts_rank query (upsert_document D (upsert_document D db))))
     = 1).
Proof.
  assert (upsert_document D (upsert_document D db) = upsert_document D db) as ->.
  { unfold upsert_document. apply insert_insert_eq. }
  repeat split.
  - apply lookup_insert_eq.
  - intros Hk Hq Hh.
    rewrite search_hits; [by rewrite Hh|by apply keyed_upsert|done|apply upsert_value_stored].
Qed.

End Search.

Lemma upsert_get_idempotent_witness :
  length (filter (λ x, x = test_doc)
            (search prefix_match flat_rank !"This"
               (upsert_document test_doc (upsert_document test_doc ∅)))) = 1.
Proof.
  apply (upsert_get_idempotent prefix_match flat_rank ∅ test_doc !"This").
  - exact keyed_empty.
  - done.
  - reflexivity.
Defined.

End StoreFacts.

(** ** Indexing a directory *)
Module IndexerFacts.
Import PyStr PurePath Models Indexer Terms Samples.

Section World.
Variable fs : Node.
Variable loads : str → result Parser.Post.

Lemma index_files_spec (docs_path : Path) (files : list Path) (n : Z) (db : gmap str Document) :
  index_files fs loads docs_path files n db
  = Ret ((n + Z.of_nat (length (omap (parsed fs loads docs_path) files)))%Z,
         upsert_all (omap (parsed fs loads docs_path) files) db).
Proof.
  revert n db. induction files as [|f files IH]; intros n db.
  - cbn. by rewrite Z.add_0_r.
  - destruct (ParserFacts.parse_file_total fs loads f docs_path) as [r Hr].
    assert (parsed fs loads docs_path f = r) as Hp by (unfold parsed; by rewrite Hr).
    cbn [index_files omap list_omap]. rewrite Hr, Hp. cbn [mbind Py.result_bind].
    destruct r as [d|]; rewrite IH; [|done].
    cbn [length upsert_all foldl]. do 2 f_equal. lia.
Qed.

Lemma successes_failures_length (docs_path : Path) :
  length (md_files fs docs_path)
  = length (successes fs loads docs_path) + length (failures fs loads docs_path).
Proof.
  unfold successes, failures.
  induction (md_files fs docs_path) as [|f files IH]; [done|].
  rewrite filter_cons. cbn. destruct (parsed fs loads docs_path f) eqn:E.
  - rewrite decide_False by done. cbn. by rewrite IH.
  - rewrite decide_True by done. cbn. rewrite IH. lia.
Qed.

(** C5: on an existing path with N files that parse and M that do not,
    indexing returns N without raising and leaves the store with exactly
    the N parsed documents upserted; on a missing path it raises
    ValueError, the missing-input error. *)
Theorem index_directory_counts (docs_path : Path) (db : gmap str Document) :
  (FS.exists_ fs docs_path = true →
     _index_directory fs loads docs_path db
     = Ret (Z.of_nat (length (successes fs loads docs_path)), upsert_all (successes fs loads docs_path) db)
     ∧ length (md_files fs docs_path)
       = length (successes fs loads docs_path) + length (failures fs loads docs_path))
  ∧ (FS.exists_ fs docs_path = false →
     _index_directory fs loads docs_path db
     = Raise (ValueError (!"Documentation path does not exist: " ++ to_str docs_path))).
Proof.
  unfold _index_directory. split; intros ->; cbn [negb]; [|done].
  split; [|apply successes_failures_length].
  by rewrite index_files_spec.
Qed.

(** C9: on an existing path with no markdown files below it, and on a
    path that names a regular file, indexing returns 0 without raising
    and leaves the store as it was. *)
Theorem index_directory_no_markdown (docs_path : Path) (db : gmap str Document) :
  (FS.exists_ fs docs_path = true → md_files fs docs_path = [] →
     _index_directory fs loads docs_path db = Ret (0%Z, db))
  ∧ (∀ data, FS.resolve fs docs_path = Some (File data) →
     _index_directory fs loads docs_path db = Ret (0%Z, db)).
Proof.
  unfold _index_directory. split.
  - by intros -> ->.
  - intros data H. unfold FS.exists_, md_files, FS.rglob_star. by rewrite H.
Qed.

End World.

Lemma index_directory_counts_witness :
  (∃ db, _index_directory sample_tree sample_loads (of_str !"") ∅ = Ret (2%Z, db)
         ∧ size db = 2
         ∧ length (failures sample_tree sample_loads (of_str !"")) = 2)
  ∧ _index_directory sample_tree sample_loads (of_str !"missing") ∅
    = Raise (ValueError !"Documentation path does not exist: missing").
Proof.
  destruct (index_directory_counts sample_tree sample_loads (of_str !"") ∅) as [H _].
  destruct (index_directory_counts sample_tree sample_loads (of_str !"missing") ∅) as [_ H'].
  split.
  - eexists. split; [exact (proj1 (H eq_refl))|]. split; reflexivity.
  - exact (H' eq_refl).
Defined.

Lemma index_directory_no_markdown_witness :
  _index_directory sample_tree sample_loads (of_str !"docs/old.md") ∅ = Ret (0%Z, ∅)
  ∧ _index_directory sample_tree sample_loads (of_str !"index.md") ∅ = Ret (0%Z, ∅).
Proof.
  split.
  - apply (index_directory_no_markdown sample_tree sample_loads (of_str !"docs/old.md") ∅);
      reflexivity.
  - apply (proj2 (index_directory_no_markdown sample_tree sample_loads (of_str !"index.md") ∅)
             !"Welcome").
    reflexivity.
Defined.

End IndexerFacts.

(** ** Content cleaning *)
Module CleanFacts.
Import PyStr Re Parser Terms.

(** *** startswith *)

Lemma startswith_prefix (s p : str) :
  startswith s p = true ↔ ∃ r, s = p ++ r.
Proof.
  revert s. induction p as [|a p IH]; intros s.
  - split; [by exists s|done].
  - destruct s as [|c s]; cbn; [split; [done|by intros [r ?]]|].
    case_decide as E.
    + subst c. rewrite IH. split; intros [r Hr]; exists r; [by rewrite Hr|by injection Hr].
    + split; [done|]. intros [r Hr]. by injection Hr.
Qed.

Lemma startswith_app (s p post : str) :
  startswith s p = true → startswith (s ++ post) p = true.
Proof.
  rewrite !startswith_prefix. intros [r ->]. exists (r ++ post). by rewrite app_assoc.
Qed.

(** *** The scan of re.sub *)

Lemma sub_scan_drop (m : matcher) (k : nat) (s : str) :
  sub_scan m k s = sub m (drop k s).
Proof.
  revert k. induction s as [|c t IH]; intros [|k]; try done.
  cbn [sub_scan drop]. apply IH.
Qed.

Lemma sub_cons (m : matcher) (c : ascii) (t : str) :
  sub m (c :: t)
  = match m (c :: t) with
    | Some (S k) => sub m (drop k t)
    | _ => c :: sub m t
    end.
Proof.
  unfold sub at 1. cbn [sub_scan].
  destruct (m (c :: t)) as [[|k]|]; try done. apply sub_scan_drop.
Qed.

(** What re.sub returns is the text with some characters left out. *)
Lemma sub_scan_sublist (m : matcher) (k : nat) (s : str) :
  sub_scan m k s `sublist_of` s.
Proof.
  revert k. induction s as [|c t IH]; intros k; [done|].
  cbn [sub_scan]. destruct k as [|k]; [|by apply sublist_cons].
  destruct (m (c :: t)) as [[|j]|]; by constructor.
Qed.

Lemma sub_sublist (m : matcher) (s : str) : sub m s `sublist_of` s.
Proof. apply sub_scan_sublist. Qed.

Lemma sub_elem_of (m : matcher) (s : str) (x : ascii) : x ∈ sub m s → x ∈ s.
Proof. intros H. exact (elem_of_sublist _ _ _ H (sub_sublist m s)). Qed.

(** A text without the first character of the pattern is left as it is. *)
Lemma sub_without_head (h : ascii) (m : matcher) (s : str) :
  starts_with_char h m → h ∉ s → sub m s = s.
Proof.
  intros Hm. induction s as [|c t IH]; intros Hh; [done|].
  rewrite sub_cons. apply not_elem_of_cons in Hh as [Hc Ht].
  destruct (m (c :: t)) as [n|] eqn:E.
  - assert (head (c :: t) = Some h) as [= ->] by (apply Hm; by rewrite E). done.
  - by rewrite IH.
Qed.

(** *** Occurrences *)

Lemma occurs_nil (m : matcher) : occurs m [] ↔ is_Some (m []).
Proof.
  split.
  - intros (pre & u & H & Hu). symmetry in H. apply app_eq_nil in H as [_ ->]. done.
  - intros H. by exists [], [].
Qed.

Lemma occurs_cons (m : matcher) (c : ascii) (t : str) :
  occurs m (c :: t) ↔ is_Some (m (c :: t)) ∨ occurs m t.
Proof.
  split.
  - intros ([|a pre] & u & H & Hu).
    + left. by rewrite H.
    + right. injection H as _ ->. by exists pre, u.
  - intros [H|(pre & u & -> & Hu)].
    + by exists [], (c :: t).
    + by exists (c :: pre), u.
Qed.

Lemma occurs_infix (m : matcher) (pre mid post : str) :
  extends m → occurs m mid → occurs m (pre ++ mid ++ post).
Proof.
  intros Hm (p & u & -> & Hu). exists (pre ++ p), (u ++ post).
  split; [by rewrite <- !app_assoc|]. by apply Hm.
Qed.

(** *** strip *)

Lemma lstrip_suffix (s : str) : ∃ pre, s = pre ++ lstrip s.
Proof.
  induction s as [|c t [pre IH]]; [by exists []|].
  cbn. destruct (isspace c); [|by exists []].
  exists (c :: pre). cbn. by rewrite <- IH.
Qed.

Lemma rstrip_prefix (s : str) : ∃ post, s = rstrip s ++ post.
Proof.
  unfold rstrip. destruct (lstrip_suffix (reverse s)) as [pre H].
  exists (reverse pre). rewrite <- reverse_app, <- H. by rewrite reverse_involutive.
Qed.

Lemma strip_infix (s : str) : ∃ pre post, s = pre ++ strip s ++ post.
Proof.
  unfold strip. destruct (lstrip_suffix s) as [pre H].
  destruct (rstrip_prefix (lstrip s)) as [post H'].
  exists pre, post. by rewrite <- H', <- H.
Qed.

Lemma lstrip_head (s : str) (c : ascii) :
  head (lstrip s) = Some c → isspace c = false.
Proof.
  induction s as [|a t IH]; [done|]. cbn.
  destruct (isspace a) eqn:E; [done|]. by intros [= <-].
Qed.

Lemma strip_head (s : str) (c : ascii) :
  head (strip s) = Some c → isspace c = false.
Proof.
  unfold strip. intros H. apply (lstrip_head s).
  destruct (rstrip_prefix (lstrip s)) as [post ->].
  by rewrite head_app, H.
Qed.

Lemma strip_last (s : str) (c : ascii) :
  last (strip s) = Some c → isspace c = false.
Proof.
  unfold strip, rstrip. rewrite last_reverse. apply lstrip_head.
Qed.

Lemma strip_sublist (s : str) : strip s `sublist_of` s.
Proof.
  destruct (strip_infix s) as (pre & post & H). rewrite H at 2.
  apply sublist_inserts_l, sublist_inserts_r. done.
Qed.

(** *** HTML tags *)

Lemma run_not_gt_stop (t : str) :
  ">"%char ∈ t → startswith (drop (run_not_gt t) t) !">" = true.
Proof.
  induction t as [|c t IH]; [by intros ?%elem_of_nil|].
  intros H. cbn [run_not_gt]. unfold not_gt. case_bool_decide as E.
  - apply elem_of_cons in H as [H|H]; [done|]. by apply IH.
  - subst c. done.
Qed.

Lemma run_not_gt_stop_inv (t : str) :
  startswith (drop (run_not_gt t) t) !">" = true → ">"%char ∈ t.
Proof.
  intros [r Hr]%startswith_prefix.
  apply (elem_of_sublist (drop (run_not_gt t) t)); [|apply sublist_drop].
  rewrite Hr. by left.
Qed.

(** A tag is [<], a character that is not [>], and a later [>]. *)
Lemma html_tag_Some (u : str) :
  is_Some (html_tag u) ↔ ∃ t, u = "<"%char :: t ∧ run_not_gt t ≠ 0 ∧ ">"%char ∈ t.
Proof.
  split.
  - destruct u as [|c t]; unfold html_tag; [by intros ?%is_Some_None|].
    case_bool_decide as E; [subst c|by intros ?%is_Some_None].
    destruct (run_not_gt t) as [|k] eqn:Er; [by intros ?%is_Some_None|].
    destruct (startswith (drop (S k) t) !">") eqn:Es; [|by intros ?%is_Some_None].
    intros _. exists t. split; [done|]. split; [by rewrite Er|].
    apply run_not_gt_stop_inv. by rewrite Er.
  - intros (t & -> & Hr & Hg). unfold html_tag. rewrite bool_decide_eq_true_2 by done.
    pose proof (run_not_gt_stop t Hg) as Hs.
    destruct (run_not_gt t) as [|k]; [done|]. by rewrite Hs.
Qed.

Lemma html_tag_starts : starts_with_char "<"%char html_tag.
Proof. intros u (t & -> & _)%html_tag_Some. done. Qed.

Lemma html_tag_extends : extends html_tag.
Proof.
  intros u post (t & -> & Hr & Hg)%html_tag_Some. apply html_tag_Some.
  exists (t ++ post). split; [done|]. split; [|apply elem_of_app; by left].
  destruct t as [|c t]; [done|]. cbn in *. by destruct (not_gt c).
Qed.

Lemma html_tag_length (u : str) (n : nat) : html_tag u = Some n → 2 ≤ n.
Proof.
  destruct u as [|c t]; unfold html_tag; [done|]. case_bool_decide; [|done].
  destruct (run_not_gt t); [done|]. destruct (startswith _ _); [|done].
  intros [= <-]. lia.
Qed.

(** Where the tag pattern fails on the text, it fails on the cleaned
    text. *)
Lemma html_tag_None_sub (c : ascii) (t : str) :
  html_tag (c :: t) = None → html_tag (c :: sub html_tag t) = None.
Proof.
  intros Hn. apply eq_None_not_Some. intros (w & [= -> <-] & Hr & Hg)%html_tag_Some.
  apply eq_None_not_Some in Hn. apply Hn, html_tag_Some.
  exists t. split; [done|]. split; [|by apply sub_elem_of in Hg].
  intros Hz. apply Hr. destruct t as [|a t]; [done|].
  cbn in Hz. unfold not_gt in Hz. case_bool_decide as E; [done|].
  subst a. rewrite sub_cons.
  replace (html_tag (">"%char :: t)) with (@None nat) by done. done.
Qed.

(** After the tag pass no tag is left. *)
Lemma sub_html_tag_free (s : str) : ¬ occurs html_tag (sub html_tag s).
Proof.
  remember (length s) as n eqn:Hn. revert s Hn.
  induction n as [n IH] using lt_wf_ind. intros [|c t] Hn.
  - rewrite occurs_nil. by intros [].
  - rewrite sub_cons. destruct (html_tag (c :: t)) as [[|k]|] eqn:E.
    + apply html_tag_length in E. lia.
    + apply (IH (length (drop k t))); [|done]. rewrite length_drop. cbn in Hn. lia.
    + rewrite occurs_cons. intros [H|H].
      * apply html_tag_None_sub in E. rewrite E in H. by destruct H.
      * apply (IH (length t)) in H; [done| |done]. cbn in Hn. lia.
Qed.

(** *** Delimited patterns *)

Lemma lazy_until_eq (dotall : bool) (close s : str) :
  lazy_until dotall close s
  = if startswith s close then Some (length close)
    else match s with
         | [] => None
         | c :: t =>
           if dotall || bool_decide (c ≠ newline)
           then S <$> lazy_until dotall close t
           else None
         end.
Proof. by destruct s. Qed.

Lemma lazy_until_cons (dotall : bool) (close : str) (c : ascii) (t : str) :
  is_Some (lazy_until dotall close (c :: t))
  ↔ startswith (c :: t) close = true
    ∨ (dotall || bool_decide (c ≠ newline) = true ∧ is_Some (lazy_until dotall close t)).
Proof.
  rewrite lazy_until_eq. destruct (startswith (c :: t) close).
  - split; [by left|by eexists].
  - destruct (dotall || bool_decide (c ≠ newline)).
    + rewrite fmap_is_Some. split; [by right|]. by intros [?|[_ ?]].
    + split; [by intros ?%is_Some_None|]. by intros [?|[? _]].
Qed.

Lemma lazy_until_nil (dotall : bool) (close : str) :
  is_Some (lazy_until dotall close []) → close = [].
Proof.
  rewrite lazy_until_eq. destruct (startswith [] close) eqn:E; [|by intros ?%is_Some_None].
  intros _. apply startswith_prefix in E as [r Hr]. symmetry in Hr.
  by apply app_eq_nil in Hr as [-> _].
Qed.

Lemma lazy_until_extends (dotall : bool) (close r post : str) :
  is_Some (lazy_until dotall close r) → is_Some (lazy_until dotall close (r ++ post)).
Proof.
  induction r as [|c t IH].
  - intros ->%lazy_until_nil. rewrite lazy_until_eq.
    replace (startswith ([] ++ post) []) with true by done. by eexists.
  - rewrite <- app_comm_cons, !lazy_until_cons. intros [H|[H1 H2]].
    + left. by apply (startswith_app (c :: t)).
    + right. split; [done|]. by apply IH.
Qed.

(** The text up to a match of [close] holds every character of [close]. *)
Lemma lazy_until_elem_of (dotall : bool) (close r : str) (x : ascii) :
  is_Some (lazy_until dotall close r) → x ∈ close → x ∈ r.
Proof.
  induction r as [|c t IH].
  - by intros ->%lazy_until_nil.
  - rewrite lazy_until_cons. intros [[r Hr]%startswith_prefix|[_ H]] Hx.
    + rewrite Hr. apply elem_of_app. by left.
    + right. by apply IH.
Qed.

(** Dropping the first character of [close] still finds a match. *)
Lemma lazy_until_tail (a : ascii) (close r : str) :
  a ≠ newline →
  is_Some (lazy_until false (a :: close) r) → is_Some (lazy_until false close r).
Proof.
  intros Ha. induction r as [|c t IH]; [by intros ?%lazy_until_nil|].
  rewrite !lazy_until_cons. intros [[r Hr]%startswith_prefix|[H1 H2]].
  - injection Hr as -> ->. right. cbn. rewrite bool_decide_eq_true_2 by done.
    split; [done|]. rewrite lazy_until_eq.
    replace (startswith (close ++ r) close) with true; [by eexists|].
    symmetry. apply startswith_prefix. by exists r.
  - right. split; [done|]. by apply IH.
Qed.

Lemma delimited_Some (dotall : bool) (open close u : str) :
  is_Some (delimited dotall open close u)
  ↔ ∃ r, u = open ++ r ∧ is_Some (lazy_until dotall close r).
Proof.
  unfold delimited. destruct (startswith u open) eqn:E.
  - apply startswith_prefix in E as [r ->]. rewrite fmap_is_Some, drop_app_length.
    split; [by exists r|]. by intros (r' & ->%app_inv_head & H).
  - split; [by intros ?%is_Some_None|]. intros (r & -> & _).
    assert (startswith (open ++ r) open = true) by (apply startswith_prefix; by exists r).
    congruence.
Qed.

Lemma delimited_extends (dotall : bool) (open close : str) :
  extends (delimited dotall open close).
Proof.
  intros u post (r & -> & Hr)%delimited_Some. apply delimited_Some.
  exists (r ++ post). split; [by rewrite app_assoc|]. by apply lazy_until_extends.
Qed.

Lemma delimited_starts (dotall : bool) (h : ascii) (open close : str) :
  starts_with_char h (delimited dotall (h :: open) close).
Proof. by intros u (r & -> & _)%delimited_Some. Qed.

Lemma delimited_length (dotall : bool) (open close u : str) (n : nat) :
  delimited dotall open close u = Some n → length open ≤ n.
Proof.
  unfold delimited. destruct (startswith u open); [|done].
  destruct (lazy_until _ _ _); [|done]. cbn. intros [= <-]. lia.
Qed.

(** *** HTML comments *)

(** Where a comment starts, a tag starts. *)
Lemma html_comment_is_tag (u : str) : is_Some (html_comment u) → is_Some (html_tag u).
Proof.
  intros (r & -> & Hr)%delimited_Some. apply html_tag_Some.
  exists (!"!--" ++ r). split; [done|]. split; [done|].
  apply elem_of_app. right. apply (lazy_until_elem_of _ _ _ _ Hr).
  do 2 right. by left.
Qed.

Lemma occurs_impl (m1 m2 : matcher) (s : str) :
  (∀ u, is_Some (m1 u) → is_Some (m2 u)) → occurs m1 s → occurs m2 s.
Proof. intros Hm (pre & u & -> & Hu). exists pre, u. split; [done|]. by apply Hm. Qed.

(** *** Shortcodes *)

Lemma closes_cons (c : ascii) (w : str) :
  closes (c :: w)
  ↔ (c = "}"%char ∧ head w = Some "}"%char) ∨ (c ≠ newline ∧ closes w).
Proof.
  unfold closes. rewrite lazy_until_cons, startswith_prefix. cbn [orb].
  rewrite bool_decide_eq_true. split; (intros [H|H]; [left|by right]).
  - destruct H as [r [= -> ->]]. done.
  - destruct H as [-> [w' ->]%head_Some]. by exists w'.
Qed.

Lemma closes_nil : ¬ closes [].
Proof. by intros ?%lazy_until_nil. Qed.

Lemma shortcode_generic_Some (u : str) :
  is_Some (shortcode_generic u) ↔ ∃ r, u = "{"%char :: "{"%char :: r ∧ closes r.
Proof. apply delimited_Some. Qed.

Lemma shortcode_generic_closes (u : str) : is_Some (shortcode_generic u) → closes u.
Proof.
  intros (r & -> & Hr)%shortcode_generic_Some.
  apply closes_cons. right. split; [done|].
  apply closes_cons. right. by split.
Qed.

(** The two specific forms are instances of the generic one. *)
Lemma shortcode_angle_is_generic (u : str) :
  is_Some (shortcode_angle u) → is_Some (shortcode_generic u).
Proof.
  intros (r & -> & Hr)%delimited_Some. apply shortcode_generic_Some.
  exists ("<"%char :: r). split; [done|].
  apply closes_cons. right. split; [done|]. by apply (lazy_until_tail ">"%char).
Qed.

Lemma shortcode_percent_is_generic (u : str) :
  is_Some (shortcode_percent u) → is_Some (shortcode_generic u).
Proof.
  intros (r & -> & Hr)%delimited_Some. apply shortcode_generic_Some.
  exists ("%"%char :: r). split; [done|].
  apply closes_cons. right. split; [done|]. by apply (lazy_until_tail "%"%char).
Qed.

(** The two ways a scan goes on at a character. *)
Lemma sub_cons_cases (m : matcher) (c : ascii) (t : str) :
  (∃ k, m (c :: t) = Some (S k) ∧ sub m (c :: t) = sub m (drop k t))
  ∨ ((m (c :: t) = None ∨ m (c :: t) = Some 0) ∧ sub m (c :: t) = c :: sub m t).
Proof.
  rewrite sub_cons. destruct (m (c :: t)) as [[|k]|]; [right|left|right]; eauto.
Qed.

Lemma sub_generic_cons_cases (c : ascii) (t : str) :
  is_Some (shortcode_generic (c :: t))
  ∨ (shortcode_generic (c :: t) = None
     ∧ sub shortcode_generic (c :: t) = c :: sub shortcode_generic t).
Proof.
  destruct (sub_cons_cases shortcode_generic c t) as [(k & E & _)|[[E|E] H]].
  - left. by rewrite E.
  - by right.
  - apply delimited_length in E. cbn in E. lia.
Qed.

(** Removing shortcodes does not bring a closing pair of braces onto a
    line that had none. *)
Lemma sub_generic_closes (t : str) :
  (closes (sub shortcode_generic t) → closes t)
  ∧ (head (sub shortcode_generic t) = Some "}"%char → head t = Some "}"%char ∨ closes t).
Proof.
  induction t as [|c t [IH1 IH2]]; [done|].
  destruct (sub_generic_cons_cases c t) as [H|[_ ->]].
  - apply shortcode_generic_closes in H. split; [done|by right].
  - split; [|by left].
    rewrite !closes_cons. intros [[-> Hh]|[Hc Hw]].
    + destruct (IH2 Hh) as [H|H]; [by left|right]. by split.
    + right. split; [done|]. by apply IH1.
Qed.

Lemma shortcode_generic_None_sub (c : ascii) (t : str) :
  shortcode_generic (c :: t) = None →
  shortcode_generic (c :: sub shortcode_generic t) = None.
Proof.
  intros Hn. apply eq_None_not_Some. intros (r & [= -> Hr] & Hc)%shortcode_generic_Some.
  apply eq_None_not_Some in Hn. apply Hn, shortcode_generic_Some.
  destruct t as [|c' t]; [done|].
  destruct (sub_generic_cons_cases c' t) as [(r' & -> & Hc')%shortcode_generic_Some|[_ H]].
  - eexists. split; [done|]. apply closes_cons. right. by split.
  - rewrite H in Hr. injection Hr as -> <-.
    exists t. split; [done|]. by apply sub_generic_closes.
Qed.

(** After the generic shortcode pass no single-line shortcode is left. *)
Lemma sub_generic_free (s : str) : ¬ occurs shortcode_generic (sub shortcode_generic s).
Proof.
  remember (length s) as n eqn:Hn. revert s Hn.
  induction n as [n IH] using lt_wf_ind. intros [|c t] Hn.
  - rewrite occurs_nil. by intros ?%is_Some_None.
  - destruct (sub_cons_cases shortcode_generic c t) as [(k & _ & ->)|[[E|E] ->]].
    + apply (IH (length (drop k t))); [|done]. rewrite length_drop. cbn in Hn. lia.
    + rewrite occurs_cons. intros [H|H].
      * apply shortcode_generic_None_sub in E. rewrite E in H. by destruct H.
      * apply (IH (length t)) in H; [done| |done]. cbn in Hn. lia.
    + apply delimited_length in E. cbn in E. lia.
Qed.

(** *** _clean_content *)

Lemma clean_content_passes (content : str) :
  _clean_content content
  = strip (sub html_tag (sub html_comment (without_shortcodes content))).
Proof. reflexivity. Qed.

Lemma without_shortcodes_elem_of (content : str) (x : ascii) :
  x ∈ without_shortcodes content → x ∈ content.
Proof. by intros ?%sub_elem_of%sub_elem_of%sub_elem_of. Qed.

Lemma occurs_strip (m : matcher) (s : str) : extends m → occurs m (strip s) → occurs m s.
Proof.
  intros Hm H. destruct (strip_infix s) as (pre & post & Hs).
  rewrite Hs. by apply occurs_infix.
Qed.

(** C3, as stated, fails: removing a comment can join the pieces of a
    shortcode, which is then left in the output. *)
Lemma clean_content_leaves_shortcode :
  _clean_content !"{<!-- -->{ x }}" = !"{{ x }}"
  ∧ occurs shortcode_generic (_clean_content !"{<!-- -->{ x }}").
Proof.
  split; [reflexivity|]. exists [], !"{{ x }}". split; [reflexivity|]. by eexists.
Qed.

(** C3, amended: the cleaned text holds no HTML tag and no HTML comment;
    the text after the three shortcode passes holds no single-line
    shortcode, and neither does the cleaned text when the input has no
    [<]; the cleaned text is the input with characters left out, without
    white space at its two ends, and an input with neither a brace nor [<]
    is only stripped. *)
Theorem clean_content_removes_markup (content : str) :
  ¬ occurs html_tag (_clean_content content)
  ∧ ¬ occurs html_comment (_clean_content content)
  ∧ ¬ occurs shortcode_generic (without_shortcodes content)
  ∧ ("<"%char ∉ content →
       ¬ occurs shortcode_angle (_clean_content content)
       ∧ ¬ occurs shortcode_percent (_clean_content content)
       ∧ ¬ occurs shortcode_generic (_clean_content content))
  ∧ _clean_content content `sublist_of` content
  ∧ (∀ c, head (_clean_content content) = Some c → isspace c = false)
  ∧ (∀ c, last (_clean_content content) = Some c → isspace c = false)
  ∧ ("{"%char ∉ content → "<"%char ∉ content → _clean_content content = strip content).
Proof.
  assert (¬ occurs html_tag (_clean_content content)) as Htag.
  { rewrite clean_content_passes. intros H%occurs_strip; [|apply html_tag_extends].
    by apply sub_html_tag_free in H. }
  split; [done|]. split.
  { intros H. apply Htag. revert H. apply occurs_impl, html_comment_is_tag. }
  split; [apply sub_generic_free|]. split.
  { intros Hlt.
    assert (¬ occurs shortcode_generic (_clean_content content)) as Hgen.
    { rewrite clean_content_passes.
      assert ("<"%char ∉ without_shortcodes content) as Hlt'
        by (intros ?%without_shortcodes_elem_of; done).
      rewrite (sub_without_head "<"%char html_comment); [|apply delimited_starts|done].
      rewrite (sub_without_head "<"%char html_tag); [|apply html_tag_starts|done].
      intros H%occurs_strip; [|apply delimited_extends].
      by apply sub_generic_free in H. }
    repeat split; [| |done]; intros H; apply Hgen; revert H; apply occurs_impl.
    - apply shortcode_angle_is_generic.
    - apply shortcode_percent_is_generic. }
  split.
  { rewrite clean_content_passes. etrans; [apply strip_sublist|].
    do 2 (etrans; [apply sub_sublist|]). unfold without_shortcodes.
    do 2 (etrans; [apply sub_sublist|]). apply sub_sublist. }
  split; [apply strip_head|]. split; [apply strip_last|].
  intros Hb Hlt. rewrite clean_content_passes. unfold without_shortcodes.
  rewrite (sub_without_head "{"%char shortcode_angle); [|apply delimited_starts|done].
  rewrite (sub_without_head "{"%char shortcode_percent); [|apply delimited_starts|done].
  rewrite (sub_without_head "{"%char shortcode_generic); [|apply delimited_starts|done].
  rewrite (sub_without_head "<"%char html_comment); [|apply delimited_starts|done].
  by rewrite (sub_without_head "<"%char html_tag); [|apply html_tag_starts|done].
Qed.

Lemma clean_content_removes_markup_witness :
  ¬ occurs shortcode_generic (_clean_content !"  {{% note %}} Regular {{ x }} content ")
  ∧ _clean_content !"  Regular content " = !"Regular content".
Proof.
  split.
  - apply (clean_content_removes_markup !"  {{% note %}} Regular {{ x }} content ").
    apply (bool_decide_unpack _). reflexivity.
  - apply (clean_content_removes_markup !"  Regular content ");
      apply (bool_decide_unpack _); reflexivity.
Defined.

End CleanFacts.

(** ** The files an indexing run visits *)
Module TreeFacts.
Import PyStr PurePath Models Parser Indexer Terms.

(** Induction on a file tree, with the property known of every entry of a
    directory. *)
Lemma Node_tree_ind (P : Node → Prop) :
  (∀ data, P (File data)) →
  (∀ es, Forall (λ e, P e.2) es → P (Dir es)) →
  ∀ n, P n.
Proof.
  intros HF HD. fix IH 1. intros [data|es]; [apply HF|].
  apply HD. induction es as [|[k n] es IHes]; constructor; [apply IH|apply IHes].
Qed.

(** What rglob lists below a node: a named entry under [here] whose name
    has the suffix. *)
Lemma rglob_node_elem_of (suffix : str) (n : Node) (here f : Path) :
  f ∈ FS.rglob_node suffix here n →
  ∃ rel nm, f = {| root := root here; names := names here ++ rel ++ [nm] |}
            ∧ endswith nm suffix = true.
Proof.
  revert here. induction n as [data|es IH] using Node_tree_ind; intros here.
  - by intros ?%elem_of_nil.
  - cbn [FS.rglob_node]. intros [H|H]%elem_of_app.
    + apply list_elem_of_fmap in H as ([k c] & -> & [Hs Hk]%list_elem_of_filter).
      exists [], k. by cbn in *.
    + apply list_elem_of_In, in_concat in H as (l & Hl & Hf).
      apply in_map_iff in Hl as ([k c] & <- & Hk).
      apply list_elem_of_In in Hk, Hf. cbn in Hf.
      rewrite Forall_forall in IH. apply (IH _ Hk) in Hf as (rel & nm & -> & Hs).
      cbn. exists (k :: rel), nm. split; [by rewrite <- app_assoc|done].
Qed.

Lemma relative_to_below (base : Path) (rel : list str) :
  relative_to {| root := root base; names := names base ++ rel |} base
  = Ret {| root := false; names := rel |}.
Proof.
  unfold relative_to. cbn. rewrite take_app_length, drop_app_length.
  by rewrite !bool_decide_eq_true_2.
Qed.

Section World.
Variable fs : Node.
Variable loads : str → result Post.

(** X1: every file an indexing run visits lies below the documentation path,
    is named with one of the two extensions, and has a path relative to the
    documentation path. *)
Theorem md_files_below (docs_path f : Path) :
  f ∈ md_files fs docs_path →
  ∃ rel nm,
    f = {| root := root docs_path; names := names docs_path ++ rel ++ [nm] |}
    ∧ (endswith nm !".md" = true ∨ endswith nm !".markdown" = true)
    ∧ name f = nm
    ∧ relative_to f docs_path = Ret {| root := false; names := rel ++ [nm] |}.
Proof.
  unfold md_files, FS.rglob_star. destruct (FS.resolve fs docs_path) as [n|]; [|by intros ?%elem_of_nil].
  intros [H|H]%elem_of_app; apply rglob_node_elem_of in H as (rel & nm & -> & Hs);
    exists rel, nm; (split; [done|]); (split; [by auto|]); split.
  all: try apply relative_to_below.
  all: unfold name; cbn; by rewrite !app_assoc, last_snoc.
Qed.

(** X2: a file the indexing run visits fails to parse exactly when reading it
    or parsing its metadata block raises. *)
Theorem md_file_fails_on_load_only (docs_path f : Path) :
  f ∈ md_files fs docs_path →
  (parse_file fs loads f docs_path = Ret None ↔ ∃ e, load fs loads f = Raise e).
Proof.
  intros (rel & nm & _ & _ & _ & Hr)%md_files_below.
  unfold parse_file, parse_file_try, Py.try_except.
  destruct (load fs loads f) as [post|e]; cbn.
  - rewrite Hr. cbn. split; [done|]. by intros [e ?].
  - split; [by exists e|done].
Qed.

(** X3: the path and the section of a parsed document: the path is the file's
    path below the base path; a file directly in the base path is in the
    section root, any other file in the section named by its first
    directory. *)
Theorem parse_file_path_section (file_path base_path : Path) (rel : list str) (d : Document) :
  parse_file fs loads file_path base_path = Ret (Some d) →
  root file_path = root base_path →
  names file_path = names base_path ++ rel →
  path d = to_str {| root := false; names := rel |}
  ∧ (length rel ≤ 1 → section d = !"root")
  ∧ (∀ dir more, rel = dir :: more → more ≠ [] → section d = dir).
Proof.
  intros (post & r & _ & Hr & ->)%ParserFacts.parse_file_Some Hroot Hnames.
  destruct file_path as [fr fn]. cbn in Hroot, Hnames. subst fr fn.
  rewrite relative_to_below in Hr. injection Hr as <-. cbn.
  split; [done|]. unfold _extract_section, parts. cbn. split.
  - destruct rel as [|a [|b rel]]; cbn; [done|done|lia].
  - intros dir more -> Hm. by destruct more.
Qed.

End World.

Lemma md_files_below_witness :
  ∃ rel, relative_to (of_str !"docs/broken.md") (of_str !"")
         = Ret {| root := false; names := rel |}.
Proof.
  destruct (md_files_below Samples.sample_tree (of_str !"") (of_str !"docs/broken.md"))
    as (rel & nm & _ & _ & _ & H).
  - apply list_elem_of_In. vm_compute. auto.
  - by eexists.
Defined.

Lemma md_file_fails_on_load_only_witness :
  ∃ e, load Samples.sample_tree Samples.sample_loads (of_str !"docs/broken.md") = Raise e.
Proof.
  apply (md_file_fails_on_load_only Samples.sample_tree Samples.sample_loads
           (of_str !"") (of_str !"docs/broken.md")).
  - apply list_elem_of_In. vm_compute. auto.
  - reflexivity.
Defined.

Lemma parse_file_path_section_witness :
  ∃ d, parse_file Samples.plain_tree Samples.plain_loads (of_str !"docs/index.md") (of_str !"")
       = Ret (Some d)
       ∧ path d = !"docs/index.md" ∧ section d = !"docs".
Proof.
  eexists. split; [reflexivity|].
  destruct (parse_file_path_section Samples.plain_tree Samples.plain_loads
              (of_str !"docs/index.md") (of_str !"") [!"docs"; !"index.md"] _
              eq_refl eq_refl eq_refl) as (Hp & _ & Hs).
  split; [exact Hp|]. apply (Hs !"docs" [!"index.md"]); done.
Defined.

End TreeFacts.

(** ** The store an indexing run leaves *)
Module ReindexFacts.
Import PyStr PurePath Models Indexer Terms.

Lemma upsert_all_cons (d : Document) (docs : list Document) (db : gmap str Document) :
  upsert_all (d :: docs) db = upsert_all docs (Store.upsert_document d db).
Proof. reflexivity. Qed.

(** A path holds the last document upserted under it, or what it held. *)
Lemma upsert_all_lookup (k : str) (docs : list Document) (db : gmap str Document) :
  upsert_all docs db !! k
  = match last (filter (λ d, path d = k) docs) with
    | Some d => Some d
    | None => db !! k
    end.
Proof.
  revert db. induction docs as [|d docs IH]; intros db; [done|].
  rewrite upsert_all_cons, IH, filter_cons. unfold Store.upsert_document.
  case_decide as E.
  - rewrite last_cons. destruct (last _); [done|]. subst k. apply lookup_insert_eq.
  - destruct (last _); [done|]. by apply lookup_insert_ne.
Qed.

Lemma upsert_all_idempotent (docs : list Document) (db : gmap str Document) :
  upsert_all docs (upsert_all docs db) = upsert_all docs db.
Proof.
  apply map_eq. intros k. rewrite !upsert_all_lookup. by destruct (last _).
Qed.

Lemma upsert_all_keyed (docs : list Document) (db : gmap str Document) :
  Store.keyed db → Store.keyed (upsert_all docs db).
Proof.
  revert db. induction docs as [|d docs IH]; intros db Hk; [done|].
  rewrite upsert_all_cons. by apply IH, StoreFacts.keyed_upsert.
Qed.

Lemma upsert_all_size (docs : list Document) (db : gmap str Document) :
  size db ≤ size (upsert_all docs db) ≤ size db + length docs.
Proof.
  revert db. induction docs as [|d docs IH]; intros db; [cbn; lia|].
  rewrite upsert_all_cons. specialize (IH (Store.upsert_document d db)).
  unfold Store.upsert_document in *. rewrite map_size_insert in IH.
  cbn [length]. destruct (db !! path d); cbn in IH; lia.
Qed.

Section World.
Variable fs : Node.
Variable loads : str → result Parser.Post.

Lemma index_directory_Ret (docs_path : Path) (db db' : gmap str Document) (n : Z) :
  _index_directory fs loads docs_path db = Ret (n, db') →
  n = Z.of_nat (length (successes fs loads docs_path))
  ∧ db' = upsert_all (successes fs loads docs_path) db.
Proof.
  unfold _index_directory. destruct (negb _); [done|].
  rewrite IndexerFacts.index_files_spec. by intros [= <- <-].
Qed.

(** X4: indexing leaves alone every path that no parsed document has, stores
    under the path of each parsed document a parsed document with that
    path, removes no path, and keeps every record under its own path. *)
Theorem index_directory_store (docs_path : Path) (db db' : gmap str Document) (n : Z) :
  _index_directory fs loads docs_path db = Ret (n, db') →
  (∀ k, (∀ d, d ∈ successes fs loads docs_path → path d ≠ k) → db' !! k = db !! k)
  ∧ (∀ d, d ∈ successes fs loads docs_path →
       ∃ d', d' ∈ successes fs loads docs_path ∧ path d' = path d ∧ db' !! path d = Some d')
  ∧ (∀ k, is_Some (db !! k) → is_Some (db' !! k))
  ∧ (Store.keyed db → Store.keyed db').
Proof.
  intros [_ ->]%index_directory_Ret. repeat split.
  - intros k Hk. rewrite upsert_all_lookup.
    destruct (last _) as [d|] eqn:E; [|done].
    apply last_Some in E as [l E].
    assert (d ∈ filter (λ d, path d = k) (successes fs loads docs_path)) as Hd
      by (rewrite E; apply elem_of_app; right; by left).
    apply list_elem_of_filter in Hd as [Hp Hd]. by destruct (Hk d Hd).
  - intros d Hd. rewrite upsert_all_lookup.
    destruct (last _) as [d'|] eqn:E.
    + apply last_Some in E as [l E].
      assert (d' ∈ filter (λ x, path x = path d) (successes fs loads docs_path)) as Hd'
        by (rewrite E; apply elem_of_app; right; by left).
      apply list_elem_of_filter in Hd' as [Hp Hd']. by exists d'.
    + apply last_None in E.
      assert (d ∈ filter (λ x, path x = path d) (successes fs loads docs_path)) as Hd'
        by (by apply list_elem_of_filter).
      rewrite E in Hd'. by apply elem_of_nil in Hd'.
  - intros k Hk. rewrite upsert_all_lookup. by destruct (last _).
  - apply upsert_all_keyed.
Qed.

(** X5: indexing the same tree again changes nothing: the second run returns
    the same count and leaves the store of the first run. *)
Theorem index_directory_again (docs_path : Path) (db db' : gmap str Document) (n : Z) :
  _index_directory fs loads docs_path db = Ret (n, db') →
  _index_directory fs loads docs_path db' = Ret (n, db').
Proof.
  intros H. pose proof H as [-> ->]%index_directory_Ret.
  unfold _index_directory in *. destruct (negb _); [done|].
  rewrite IndexerFacts.index_files_spec. by rewrite upsert_all_idempotent.
Qed.

(** X6: the store grows by at most the count returned, and never shrinks. *)
Theorem index_directory_size (docs_path : Path) (db db' : gmap str Document) (n : Z) :
  _index_directory fs loads docs_path db = Ret (n, db') →
  (0 ≤ n
   ∧ Store.get_document_count db ≤ Store.get_document_count db'
   ∧ Store.get_document_count db' ≤ Store.get_document_count db + n)%Z.
Proof.
  intros [-> ->]%index_directory_Ret. unfold Store.get_document_count.
  pose proof (upsert_all_size (successes fs loads docs_path) db). lia.
Qed.

End World.

Lemma index_directory_store_witness :
  ∃ n db', _index_directory Samples.sample_tree Samples.sample_loads (of_str !"") ∅
           = Ret (n, db')
           ∧ Store.keyed db'.
Proof.
  eexists _, _. split; [reflexivity|].
  apply (index_directory_store Samples.sample_tree Samples.sample_loads (of_str !"") ∅ _ _
           eq_refl).
  apply StoreFacts.keyed_empty.
Defined.

Lemma index_directory_again_witness :
  ∃ n db', _index_directory Samples.sample_tree Samples.sample_loads (of_str !"") ∅
           = Ret (n, db')
           ∧ _index_directory Samples.sample_tree Samples.sample_loads (of_str !"") db'
             = Ret (n, db').
Proof.
  eexists _, _. split; [reflexivity|].
  apply (index_directory_again Samples.sample_tree Samples.sample_loads (of_str !"") ∅ _ _
           eq_refl).
Defined.

Lemma index_directory_size_witness :
  ∃ n db', _index_directory Samples.sample_tree Samples.sample_loads (of_str !"") ∅
           = Ret (n, db')
           ∧ (Store.get_document_count db' ≤ Store.get_document_count ∅ + n)%Z.
Proof.
  eexists _, _. split; [reflexivity|].
  apply (index_directory_size Samples.sample_tree Samples.sample_loads (of_str !"") ∅ _ _
           eq_refl).
Defined.

End ReindexFacts.

(** ** URLs of well-named paths *)
Module PlainUrlFacts.
Import PyStr PurePath Parser MoreTerms.

Lemma contains_scan (s old : str) : contains s old → contains_b s old = true.
Proof.
  intros (pre & post & ->). induction pre as [|c pre IH]; cbn [app].
  - destruct (old ++ post) eqn:E; cbn; rewrite <- E;
      replace (startswith (old ++ post) old) with true; try done;
      symmetry; apply CleanFacts.startswith_prefix; by exists post.
  - cbn [contains_b]. rewrite IH. by destruct (startswith _ _).
Qed.

Lemma contains_cons (c : ascii) (s old : str) : contains s old → contains (c :: s) old.
Proof. intros (pre & post & ->). by exists (c :: pre), post. Qed.

Lemma contains_app_l (a s old : str) : contains s old → contains (a ++ s) old.
Proof. intros (pre & post & ->). exists (a ++ pre), post. by rewrite <- app_assoc. Qed.

Lemma contains_app_r (s b old : str) : contains s old → contains (s ++ b) old.
Proof. intros (pre & post & ->). exists pre, (post ++ b). by rewrite <- !app_assoc. Qed.

Lemma contains_prefix (s old old' : str) : contains s (old ++ old') → contains s old.
Proof. intros (pre & post & ->). exists pre, (old' ++ post). by rewrite <- !app_assoc. Qed.

(** A text in which [old] does not occur is returned as it is. *)
Lemma replace_scan_absent (old new s : str) :
  ¬ contains s old → replace_scan old new 0 s = s.
Proof.
  induction s as [|c t IH]; intros Hn; [done|].
  cbn [replace_scan]. destruct (startswith (c :: t) old) eqn:E.
  - apply CleanFacts.startswith_prefix in E as [r E]. destruct Hn. by exists [], r.
  - rewrite IH; [done|]. intros H. by apply Hn, contains_cons.
Qed.

Lemma replace_absent (old new s : str) :
  ¬ contains s old → replace s old new = s.
Proof.
  intros Hn. destruct old as [|a old]; [|by apply replace_scan_absent].
  destruct Hn. by exists [], s.
Qed.

(** The scan passes over a text without the first character of [old]. *)
Lemma replace_scan_head_absent (h : ascii) (old new s t : str) :
  head old = Some h → h ∉ s →
  replace_scan old new 0 (s ++ t) = s ++ replace_scan old new 0 t.
Proof.
  destruct old as [|h' old]; [done|]. intros [= ->].
  induction s as [|c s IH]; [done|]. intros [Hc Hs]%not_elem_of_cons.
  cbn [app replace_scan startswith]. rewrite decide_False by done. by rewrite IH.
Qed.

Lemma replace_scan_skip (old new a s : str) :
  replace_scan old new (length a) (a ++ s) = replace_scan old new 0 s.
Proof. induction a as [|c a IH]; [done|]. apply IH. Qed.

(** An occurrence at the start is replaced and the scan goes on after it. *)
Lemma replace_scan_here (old new s : str) :
  old ≠ [] →
  replace_scan old new 0 (old ++ s) = new ++ replace_scan old new 0 s.
Proof.
  destruct old as [|c old]; [done|]. intros _. cbn [app replace_scan].
  replace (startswith (c :: old ++ s) (c :: old)) with true
    by (symmetry; apply CleanFacts.startswith_prefix; by exists s).
  replace (length (c :: old) - 1) with (length old) by (cbn; lia).
  by rewrite replace_scan_skip.
Qed.

Lemma endswith_app (a b : str) : endswith (a ++ b) b = true.
Proof.
  unfold endswith. rewrite reverse_app. apply CleanFacts.startswith_prefix. by eexists.
Qed.

Lemma drop_last_app (a b : str) : drop_last (length b) (a ++ b) = a.
Proof.
  unfold drop_last. rewrite length_app, Nat.add_sub. by rewrite take_app_length.
Qed.

Lemma drop_last_prefix (n : nat) (s : str) : ∃ post, s = drop_last n s ++ post.
Proof. exists (drop (length s - n) s). unfold drop_last. by rewrite take_drop. Qed.

(** The extension step on a name without a dot. *)
Lemma strip_extension (s ext : str) :
  "."%char ∉ s → ext = !".md" ∨ ext = !".markdown" →
  replace (replace (s ++ ext) !".md" []) !".markdown" [] = s.
Proof.
  assert (replace_scan !".md" [] 0 !".md" = []) as E1 by reflexivity.
  assert (replace_scan !".md" [] 0 !".markdown" = !".markdown") as E2 by reflexivity.
  assert (replace_scan !".markdown" [] 0 !".markdown" = []) as E3 by reflexivity.
  intros Hd [-> | ->]; change (replace ?x !".md" []) with (replace_scan !".md" [] 0 x);
    change (replace ?x !".markdown" []) with (replace_scan !".markdown" [] 0 x).
  - rewrite (replace_scan_head_absent "."%char) by done. rewrite E1, app_nil_r.
    rewrite <- (app_nil_r s) at 1. rewrite (replace_scan_head_absent "."%char) by done.
    by rewrite app_nil_r.
  - rewrite (replace_scan_head_absent "."%char) by done. rewrite E2.
    rewrite (replace_scan_head_absent "."%char) by done. by rewrite E3, app_nil_r.
Qed.

Lemma startswith_app_same (a s p : str) : startswith (a ++ s) (a ++ p) = startswith s p.
Proof. induction a as [|c a IH]; [done|]. cbn. by rewrite decide_True. Qed.

(** The two prefix rewrites on a path that starts with content/en/ and has
    no other occurrence of it. *)
Lemma hugo_rewrite (s : str) :
  ¬ contains s !"content/en/" →
  replace (replace (!"content/en/" ++ s) !"content/en/docs/" !"docs/") !"content/en/" [] = s.
Proof.
  intros Hn.
  assert (¬ contains s !"content/en/docs/") as Hn'
    by (intros H; by apply Hn, (contains_prefix _ _ !"docs/")).
  change (replace ?x !"content/en/docs/" ?n) with (replace_scan !"content/en/docs/" n 0 x).
  change (replace ?x !"content/en/" ?n) with (replace_scan !"content/en/" n 0 x).
  destruct (startswith s !"docs/") eqn:E.
  - apply CleanFacts.startswith_prefix in E as [r ->].
    change (!"content/en/" ++ !"docs/" ++ r) with (!"content/en/docs/" ++ r).
    rewrite (replace_scan_here !"content/en/docs/") by done.
    rewrite (replace_scan_absent _ _ r)
      by (intros H; by apply Hn', (contains_app_l !"docs/")).
    by apply replace_scan_absent.
  - assert (replace_scan !"content/en/docs/" !"docs/" 0 (!"content/en/" ++ s)
            = !"content/en/" ++ s) as ->.
    { change (!"content/en/" ++ s) with ("c"%char :: !"ontent/en/" ++ s) at 1.
      cbn [replace_scan].
      change ("c"%char :: !"ontent/en/" ++ s) with (!"content/en/" ++ s).
      change !"content/en/docs/" with (!"content/en/" ++ !"docs/") at 1.
      rewrite startswith_app_same, E.
      rewrite (replace_scan_head_absent "c"%char); [|done|by apply (bool_decide_unpack _)].
      by rewrite replace_scan_absent. }
    rewrite (replace_scan_here !"content/en/") by done. by apply replace_scan_absent.
Qed.

(** X7: the URL of a path with no dot before its extension and no occurrence of
    content/en/: the base URL, a slash, and the path without the extension
    and without a trailing /index. *)
Theorem compute_url_plain (p : Path) (s ext : str) :
  to_str p = s ++ ext →
  ext = !".md" ∨ ext = !".markdown" →
  "."%char ∉ s →
  ¬ contains s !"content/en/" →
  _compute_url p
  = KARPENTER_DOCS_BASE_URL ++ !"/" ++ (if endswith s !"/index" then drop_last 6 s else s).
Proof.
  intros Hp Hext Hd Hn. unfold _compute_url. rewrite Hp, strip_extension by done.
  set (s' := if endswith s !"/index" then drop_last 6 s else s).
  assert (¬ contains s' !"content/en/") as Hn'.
  { intros H. apply Hn. unfold s' in H. destruct (endswith s !"/index"); [|done].
    destruct (drop_last_prefix 6 s) as [post ->]. by apply contains_app_r. }
  rewrite (replace_absent !"content/en/docs/")
    by (intros H; by apply Hn', (contains_prefix _ _ !"docs/")).
  by rewrite replace_absent.
Qed.

(** X8: the URL of a path below content/en/: the prefix is dropped, so that
    content/en/docs/x and content/en/x map to <base>/docs/x and <base>/x; a
    trailing /index is dropped first. *)
Theorem compute_url_hugo (p : Path) (s ext : str) :
  to_str p = !"content/en/" ++ s ++ ext →
  ext = !".md" ∨ ext = !".markdown" →
  "."%char ∉ s →
  ¬ contains s !"content/en/" →
  (endswith (!"content/en/" ++ s) !"/index" = false →
     _compute_url p = KARPENTER_DOCS_BASE_URL ++ !"/" ++ s)
  ∧ (∀ s0, s = s0 ++ !"/index" →
     _compute_url p = KARPENTER_DOCS_BASE_URL ++ !"/" ++ s0).
Proof.
  intros Hp Hext Hd Hn.
  assert ("."%char ∉ !"content/en/" ++ s) as Hd'.
  { intros [H|H]%elem_of_app; [|done]. revert H. by apply (bool_decide_unpack _). }
  unfold _compute_url. rewrite Hp, (app_assoc !"content/en/" s ext).
  rewrite strip_extension by done.
  split.
  - intros ->. by rewrite hugo_rewrite.
  - intros s0 ->. rewrite (app_assoc !"content/en/" s0 !"/index"), endswith_app.
    change 6 with (length !"/index"). rewrite drop_last_app, hugo_rewrite; [done|].
    intros H. by apply Hn, contains_app_r.
Qed.

Lemma compute_url_plain_witness :
  _compute_url (of_str !"docs/concepts/index.md")
  = KARPENTER_DOCS_BASE_URL ++ !"/" ++ !"docs/concepts".
Proof.
  apply (compute_url_plain (of_str !"docs/concepts/index.md") !"docs/concepts/index" !".md").
  - reflexivity.
  - by left.
  - by apply (bool_decide_unpack _).
  - by intros ?%contains_scan.
Defined.

Lemma compute_url_hugo_witness :
  _compute_url (of_str !"content/en/docs/guides/x.markdown")
  = KARPENTER_DOCS_BASE_URL ++ !"/" ++ !"docs/guides/x".
Proof.
  destruct (compute_url_hugo (of_str !"content/en/docs/guides/x.markdown")
              !"docs/guides/x" !".markdown") as [H _].
  - reflexivity.
  - by right.
  - by apply (bool_decide_unpack _).
  - by intros ?%contains_scan.
  - exact (H eq_refl).
Defined.

End PlainUrlFacts.

(** ** Metadata extraction *)
Module MetadataFacts.
Import PyStr PurePath Models Parser Terms.

Lemma get_insert (metadata : gmap str object) (k key : str) (v : object) :
  get (<[k:=v]> metadata) key = if decide (k = key) then v else get metadata key.
Proof. unfold get. rewrite lookup_insert. by case_decide. Qed.

Lemma get_delete (metadata : gmap str object) (k key : str) :
  get (delete k metadata) key = if decide (k = key) then VNone else get metadata key.
Proof. unfold get. rewrite lookup_delete. by case_decide. Qed.

(** X9: a field of the wrong type counts as a missing field, and fields other
    than title, description and license are not read. *)
Theorem extract_metadata_wrong_type (metadata : gmap str object) (file_path : Path)
    (k : str) (v : object) :
  ((∀ s, v ≠ VStr s) →
     _extract_metadata (<[k:=v]> metadata) file_path
     = _extract_metadata (delete k metadata) file_path)
  ∧ (k ≠ !"title" → k ≠ !"description" → k ≠ !"license" →
     _extract_metadata (<[k:=v]> metadata) file_path
     = _extract_metadata metadata file_path).
Proof.
  unfold _extract_metadata. split.
  - intros Hv. rewrite !get_insert, !get_delete.
    repeat case_decide; destruct v; try done; by destruct (Hv s).
  - intros H1 H2 H3. rewrite !get_insert. by rewrite !decide_False.
Qed.






Lemma extract_metadata_wrong_type_witness :
  _extract_metadata (<[ !"description" := VInt 3 ]> ∅) (of_str !"docs/test-doc.md")
  = _extract_metadata (delete !"description" ∅) (of_str !"docs/test-doc.md").
Proof.
  apply (proj1 (extract_metadata_wrong_type ∅ (of_str !"docs/test-doc.md")
                  !"description" (VInt 3))).
  by intros s.
Defined.


End MetadataFacts.

(** ** Indexing a clone *)
Module RemoteFacts.
Import PyStr PurePath Models Indexer Remote Terms.

Section World.
Variable loads : str → result Parser.Post.
Variable run : list str → Node → result Node.
Variable mkdtemp : Node → Path * Node.

(** What a call of index_from_git went through. *)
Lemma index_from_git_cases (branch : str) (shallow : bool) (fs : Node)
    (db db' : gmap str Document) (r : result Z) :
  index_from_git loads run mkdtemp branch shallow fs db = (db', r) →
  (db' = db ∧ ∃ e, r = Raise e)
  ∨ (∃ fs' docs_path n, _index_directory fs' loads docs_path db = Ret (n, db') ∧ r = Ret n).
Proof.
  unfold index_from_git. destruct (mkdtemp fs) as [temp_dir fs1].
  destruct (_clone_repository _ _ _ _ _) as [fs2|e]; [|intros [= <- <-]; left; eauto].
  destruct (_index_directory _ _ _ _) as [[n db2]|e] eqn:E; intros [= <- <-].
  - right. eauto.
  - left. eauto.
Qed.

(** X11: a rebuild does not depend on what the store held. If it raises, the
    store is left empty; if it returns a count, the store holds at most that
    many documents, each under its own path. *)
Theorem rebuild_index_fresh (branch : str) (fs : Node) (db db' : gmap str Document)
    (r : result Z) :
  rebuild_index loads run mkdtemp branch fs db = (db', r) →
  rebuild_index loads run mkdtemp branch fs ∅ = (db', r)
  ∧ (∀ e, r = Raise e → db' = ∅)
  ∧ (∀ n, r = Ret n → (Store.get_document_count db' ≤ n)%Z ∧ Store.keyed db').
Proof.
  unfold rebuild_index, Store.clear. intros H. split; [done|].
  apply index_from_git_cases in H as [[-> [e ->]]|(fs' & p & n & H & ->)].
  - split; [done|]. by intros n [=].
  - split; [by intros e [=]|]. intros n' [= <-].
    pose proof (ReindexFacts.index_directory_Ret _ _ _ _ _ _ H) as [_ ->].
    split; [|apply ReindexFacts.upsert_all_keyed, StoreFacts.keyed_empty].
    pose proof (ReindexFacts.index_directory_Ret _ _ _ _ _ _ H) as [-> _].
    unfold Store.get_document_count.
    pose proof (ReindexFacts.upsert_all_size (successes fs' loads p) ∅) as Hs.
    rewrite map_size_empty in Hs. lia.
Qed.

(** X12: when git fails, index_from_git raises git's error and leaves the store
    untouched: a failing clone command stops the call before anything is
    indexed, and so does a failing sparse checkout of a shallow clone. *)
Theorem index_from_git_git_failure (branch : str) (shallow : bool) (fs fs1 : Node)
    (temp_dir : Path) (db : gmap str Document) (e : Exn) :
  mkdtemp fs = (temp_dir, fs1) →
  (run (clone_cmd (joinpath temp_dir !"karpenter-provider-aws") branch shallow) fs1 = Raise e
   ∨ (shallow = true
      ∧ ∃ fs2, run (clone_cmd (joinpath temp_dir !"karpenter-provider-aws") branch shallow) fs1
                 = Ret fs2
               ∧ run (sparse_cmd (joinpath temp_dir !"karpenter-provider-aws")) fs2 = Raise e)) →
  index_from_git loads run mkdtemp branch shallow fs db = (db, Raise e).
Proof.
  unfold index_from_git, _clone_repository. intros ->. cbv beta iota zeta.
  intros [->|(-> & fs2 & -> & H)]; [done|].
  unfold mbind, Py.result_bind. by rewrite H.
Qed.

End World.

Lemma rebuild_index_fresh_witness :
  ∃ db' r,
    rebuild_index Samples.plain_loads MoreTerms.sample_run MoreTerms.sample_mkdtemp
      !"main" (Dir []) (Store.upsert_document Samples.test_doc ∅) = (db', r)
    ∧ rebuild_index Samples.plain_loads MoreTerms.sample_run MoreTerms.sample_mkdtemp
        !"main" (Dir []) ∅ = (db', r).
Proof.
  eexists _, _. split; [reflexivity|].
  apply (rebuild_index_fresh Samples.plain_loads MoreTerms.sample_run MoreTerms.sample_mkdtemp
           !"main" (Dir []) (Store.upsert_document Samples.test_doc ∅) _ _ eq_refl).
Defined.

Lemma index_from_git_git_failure_witness :
  index_from_git Samples.plain_loads MoreTerms.failing_run MoreTerms.sample_mkdtemp
    !"main" true (Dir []) (Store.upsert_document Samples.test_doc ∅)
  = (Store.upsert_document Samples.test_doc ∅, Raise (Py.LibraryError !"git")).
Proof.
  apply (index_from_git_git_failure Samples.plain_loads MoreTerms.failing_run
           MoreTerms.sample_mkdtemp !"main" true (Dir []) (Dir []) (of_str !"tmp/clone")).
  - reflexivity.
  - by left.
Defined.

End RemoteFacts.

(** ** Cleaning one piece of markup *)
Module MarkupFacts.
Import PyStr Re Parser Terms CleanFacts.

(** The scan passes over a text without the first character of the
    pattern. *)
Lemma sub_pass_over (h : ascii) (m : matcher) (a t : str) :
  starts_with_char h m → h ∉ a → sub m (a ++ t) = a ++ sub m t.
Proof.
  intros Hm. induction a as [|c a IH]; [done|]. intros [Hc Ha]%not_elem_of_cons.
  cbn [app]. rewrite sub_cons. destruct (m (c :: a ++ t)) as [n|] eqn:E.
  - assert (head (c :: a ++ t) = Some h) as [= ->] by (apply Hm; by rewrite E). done.
  - by rewrite IH.
Qed.

(** A match at the start is dropped and the scan goes on after it. *)
Lemma sub_match_here (m : matcher) (u b : str) :
  u ≠ [] → m (u ++ b) = Some (length u) → sub m (u ++ b) = sub m b.
Proof.
  destruct u as [|c u]; [done|]. intros _ H. cbn [app] in *. rewrite sub_cons, H.
  cbn [length]. by rewrite drop_app_length.
Qed.

(** The lazy run stops at the first place where [close] starts. *)
Lemma lazy_until_first (dotall : bool) (close x b : str) :
  (∀ pre u, x = pre ++ u → u ≠ [] → startswith (u ++ close ++ b) close = false) →
  dotall = true ∨ newline ∉ x →
  lazy_until dotall close (x ++ close ++ b) = Some (length x + length close).
Proof.
  induction x as [|c x IH]; intros Hf Hd.
  - rewrite lazy_until_eq.
    replace (startswith ([] ++ close ++ b) close) with true; [done|].
    symmetry. apply startswith_prefix. by exists b.
  - rewrite lazy_until_eq. rewrite (Hf [] (c :: x)) by done. cbn [app].
    assert (dotall || bool_decide (c ≠ newline) = true) as ->.
    { destruct Hd as [->|Hd]; [done|]. apply not_elem_of_cons in Hd as [Hc _].
      rewrite bool_decide_eq_true_2 by done. by destruct dotall. }
    rewrite IH; [done| |].
    + intros pre u -> Hu. by apply (Hf (c :: pre)).
    + destruct Hd as [?|Hd]; [by left|right]. by apply not_elem_of_cons in Hd as [_ ?].
Qed.

Lemma delimited_first (dotall : bool) (open close x b : str) :
  (∀ pre u, x = pre ++ u → u ≠ [] → startswith (u ++ close ++ b) close = false) →
  dotall = true ∨ newline ∉ x →
  delimited dotall open close ((open ++ x ++ close) ++ b)
  = Some (length (open ++ x ++ close)).
Proof.
  intros Hf Hd. unfold delimited.
  replace (startswith ((open ++ x ++ close) ++ b) open) with true
    by (symmetry; apply startswith_prefix; exists ((x ++ close) ++ b); by rewrite <- !app_assoc).
  rewrite <- !app_assoc, drop_app_length, lazy_until_first by done.
  cbn. by rewrite !length_app.
Qed.

Lemma shortcode_angle_starts : starts_with_char "{"%char shortcode_angle.
Proof. apply delimited_starts. Qed.
Lemma shortcode_percent_starts : starts_with_char "{"%char shortcode_percent.
Proof. apply delimited_starts. Qed.
Lemma shortcode_generic_starts : starts_with_char "{"%char shortcode_generic.
Proof. apply delimited_starts. Qed.
Lemma html_comment_starts : starts_with_char "<"%char html_comment.
Proof. apply delimited_starts. Qed.

(** With no closing brace in the shortcode, its end is the first [>}}]. *)
Lemma angle_close_first (x b : str) :
  "}"%char ∉ x →
  ∀ pre u, x = pre ++ u → u ≠ [] → startswith (u ++ !">}}" ++ b) !">}}" = false.
Proof.
  intros Hx pre u -> Hu. apply not_elem_of_app in Hx as [_ Hx].
  destruct u as [|c [|d u]]; [done| |]; cbn; case_decide; try done.
  apply not_elem_of_cons in Hx as [_ [Hd _]%not_elem_of_cons]. by rewrite decide_False.
Qed.

(** With no [>] in the comment, its end is the first [-->]. *)
Lemma comment_close_first (x b : str) :
  ">"%char ∉ x →
  ∀ pre u, x = pre ++ u → u ≠ [] → startswith (u ++ !"-->" ++ b) !"-->" = false.
Proof.
  intros Hx pre u -> Hu. apply not_elem_of_app in Hx as [_ Hx].
  destruct u as [|c [|d [|e u]]]; [done| | |]; cbn; repeat case_decide; try done.
  subst. apply not_elem_of_cons in Hx as [_ [_ [He _]%not_elem_of_cons]%not_elem_of_cons].
  done.
Qed.

(** X13: a Hugo shortcode on one line, in a text that has no other brace and no
    [<] outside it, is removed and the text around it kept. *)
Theorem clean_content_drops_shortcode (a x b : str) :
  "{"%char ∉ a → "<"%char ∉ a → "{"%char ∉ b → "<"%char ∉ b →
  "}"%char ∉ x → newline ∉ x →
  _clean_content (a ++ (!"{{<" ++ x ++ !">}}") ++ b) = strip (a ++ b).
Proof.
  intros Ha1 Ha2 Hb1 Hb2 Hx Hn.
  assert ("{"%char ∉ a ++ b) as H1 by (by apply not_elem_of_app).
  assert ("<"%char ∉ a ++ b) as H2 by (by apply not_elem_of_app).
  rewrite clean_content_passes. f_equal. unfold without_shortcodes.
  assert (sub shortcode_angle (a ++ (!"{{<" ++ x ++ !">}}") ++ b) = a ++ b) as ->.
  { rewrite (sub_pass_over _ _ _ _ shortcode_angle_starts Ha1).
    rewrite sub_match_here;
      [|done|apply delimited_first; [by apply angle_close_first|by right]].
    by rewrite (sub_without_head _ _ _ shortcode_angle_starts Hb1). }
  rewrite (sub_without_head _ _ _ shortcode_percent_starts H1).
  rewrite (sub_without_head _ _ _ shortcode_generic_starts H1).
  rewrite (sub_without_head _ _ _ html_comment_starts H2).
  by rewrite (sub_without_head _ _ _ html_tag_starts H2).
Qed.

(** X14: an HTML comment without [>] inside, in a text that has no brace and no
    other [<] around it, is removed and the text around it kept. *)
Theorem clean_content_drops_comment (a x b : str) :
  "{"%char ∉ a → "<"%char ∉ a → "{"%char ∉ b → "<"%char ∉ b →
  "{"%char ∉ x → ">"%char ∉ x →
  _clean_content (a ++ (!"<!--" ++ x ++ !"-->") ++ b) = strip (a ++ b).
Proof.
  intros Ha1 Ha2 Hb1 Hb2 Hx1 Hx2.
  assert ("{"%char ∉ a ++ (!"<!--" ++ x ++ !"-->") ++ b) as H1.
  { rewrite !not_elem_of_app. repeat split; try done; by apply (bool_decide_unpack _). }
  rewrite clean_content_passes. f_equal. unfold without_shortcodes.
  rewrite (sub_without_head _ _ _ shortcode_angle_starts H1).
  rewrite (sub_without_head _ _ _ shortcode_percent_starts H1).
  rewrite (sub_without_head _ _ _ shortcode_generic_starts H1).
  rewrite (sub_pass_over _ _ _ _ html_comment_starts Ha2).
  rewrite (sub_match_here html_comment (!"<!--" ++ x ++ !"-->") b);
    [|done|apply delimited_first; [by apply comment_close_first|by left]].
  rewrite (sub_without_head _ _ _ html_comment_starts Hb2).
  apply (sub_without_head _ _ _ html_tag_starts). by apply not_elem_of_app.
Qed.

Lemma run_not_gt_app (x b : str) :
  ">"%char ∉ x → run_not_gt (x ++ ">"%char :: b) = length x.
Proof.
  induction x as [|c x IH]; [done|]. intros [Hc Hx]%not_elem_of_cons.
  cbn. unfold not_gt. rewrite bool_decide_eq_true_2 by done. by rewrite IH.
Qed.

(** X15: an HTML tag, in a text that has no brace and no other [<] or [>] in or
    around it, is removed and the text around it kept. *)
Theorem clean_content_drops_tag (a x b : str) :
  "{"%char ∉ a → "<"%char ∉ a → "{"%char ∉ b → "<"%char ∉ b →
  "{"%char ∉ x → "<"%char ∉ x → ">"%char ∉ x →
  x ≠ [] → head x ≠ Some "!"%char →
  _clean_content (a ++ (!"<" ++ x ++ !">") ++ b) = strip (a ++ b).
Proof.
  intros Ha1 Ha2 Hb1 Hb2 Hx1 Hx2 Hx3 Hne Hbang.
  assert ("{"%char ∉ a ++ (!"<" ++ x ++ !">") ++ b) as H1.
  { rewrite !not_elem_of_app. repeat split; try done; by apply (bool_decide_unpack _). }
  assert ("<"%char ∉ (x ++ !">") ++ b) as H2.
  { rewrite !not_elem_of_app. repeat split; try done; by apply (bool_decide_unpack _). }
  rewrite clean_content_passes. f_equal. unfold without_shortcodes.
  rewrite (sub_without_head _ _ _ shortcode_angle_starts H1).
  rewrite (sub_without_head _ _ _ shortcode_percent_starts H1).
  rewrite (sub_without_head _ _ _ shortcode_generic_starts H1).
  rewrite (sub_pass_over _ _ _ _ html_comment_starts Ha2).
  assert (sub html_comment ((!"<" ++ x ++ !">") ++ b) = (!"<" ++ x ++ !">") ++ b) as ->.
  { change ((!"<" ++ x ++ !">") ++ b) with ("<"%char :: (x ++ !">") ++ b).
    rewrite sub_cons.
    assert (html_comment ("<"%char :: (x ++ !">") ++ b) = None) as ->.
    { unfold html_comment, delimited. destruct x as [|c x]; [done|].
      cbn. rewrite decide_True by done. rewrite decide_False; [done|].
      intros <-. by apply Hbang. }
    by rewrite (sub_without_head _ _ _ html_comment_starts H2). }
  rewrite (sub_pass_over _ _ _ _ html_tag_starts Ha2).
  rewrite (sub_match_here html_tag (!"<" ++ x ++ !">") b).
  - by rewrite (sub_without_head _ _ _ html_tag_starts Hb2).
  - done.
  - change ((!"<" ++ x ++ !">") ++ b) with ("<"%char :: (x ++ !">") ++ b).
    unfold html_tag. rewrite bool_decide_eq_true_2 by done.
    rewrite <- app_assoc. change (!">" ++ b) with (">"%char :: b).
    rewrite run_not_gt_app by done. destruct x as [|c x]; [done|].
    change (length (c :: x)) with (S (length x)). cbv beta iota.
    change (S (length x)) with (length (c :: x)) at 1.
    rewrite drop_app_length.
    replace (startswith (">"%char :: b) !">") with true by done.
    f_equal. cbn. rewrite length_app. cbn. lia.
Qed.

Lemma clean_content_drops_shortcode_witness :
  _clean_content (!"  Before " ++ (!"{{<" ++ !" hint info " ++ !">}}") ++ !" after ")
  = strip (!"  Before " ++ !" after ").
Proof.
  apply clean_content_drops_shortcode; by apply (bool_decide_unpack _).
Defined.

Lemma clean_content_drops_comment_witness :
  _clean_content (!"Before " ++ (!"<!--" ++ !" a - note " ++ !"-->") ++ !" after")
  = strip (!"Before " ++ !" after").
Proof.
  apply clean_content_drops_comment; by apply (bool_decide_unpack _).
Defined.

Lemma clean_content_drops_tag_witness :
  _clean_content (!"Some " ++ (!"<" ++ !"div class=x" ++ !">") ++ !"text")
  = strip (!"Some " ++ !"text").
Proof.
  apply clean_content_drops_tag; try (by apply (bool_decide_unpack _)); done.
Defined.

End MarkupFacts.
